(** * neural_sequence_labeling: models/preprocess.py

    A shallow embedding of the corpus reader, the word encoder, the batch
    assembler, the sequence padder and the chunk extractor of
    [models/preprocess.py], with the properties of its specification.

    Conventions of the embedding:
    - a Python [int] is a [Z]; a [len(...)], an [enumerate] index and a
      chunk boundary are [nat]s (they are never negative);
    - a Python [str] is a [string], one [ascii] per character (the
      characters below 256);
    - a Python [list] is a [list]; a [dict] used as a vocabulary is a
      [gmap]; the tag dictionary, whose insertion order decides how it is
      inverted, is an association list;
    - a call that may raise returns a [result]; a generator returns the
      list of the values it yields together with the way it stops. *)

From Stdlib Require Import ZArith Ascii String.
From stdpp Require Import base tactics option list strings gmap.

Open Scope string_scope.
Open Scope list_scope.
Open Scope Z_scope.

(** ** Python values and builtins used by the module *)

Inductive exn : Type :=
  | ValueError
  | KeyError
  | IndexError
  | TypeError
  | Exception (msg : string).

Inductive result (A : Type) : Type :=
  | Ok (a : A)
  | Raise (e : exn).
Arguments Ok {A} a.
Arguments Raise {A} e.

#[global] Instance result_ret : MRet result := fun A a => Ok a.
#[global] Instance result_bind : MBind result := fun A B k r =>
  match r with
  | Ok a => k a
  | Raise e => Raise e
  end.

Module Py.

(** [len(l)] as a Python integer. *)
Definition len {A} (l : list A) : Z := Z.of_nat (length l).

(** [l[:stop]]: a negative [stop] counts from the end of the list. *)
Definition slice_to {A} (l : list A) (stop : Z) : list A :=
  if stop <? 0 then take (Z.to_nat (Z.max (len l + stop) 0)) l
  else take (Z.to_nat stop) l.

(** [[x] * n]: the empty list when [n <= 0]. *)
Definition times {A} (x : A) (n : Z) : list A := replicate (Z.to_nat n) x.

(** [l[i]]: a negative [i] counts from the end; out of range raises. *)
Definition index {A} (l : list A) (i : Z) : result A :=
  let j := if i <? 0 then len l + i else i in
  if j <? 0 then Raise IndexError
  else match l !! Z.to_nat j with
       | Some x => Ok x
       | None => Raise IndexError
       end.

(** [max(l)] over integers: [ValueError] on the empty list. *)
Definition max_of (l : list Z) : result Z :=
  match l with
  | [] => Raise ValueError
  | x :: l' => Ok (foldl Z.max x l')
  end.

(** [d[key]] on a dictionary given by its items: [KeyError] when the key
    is absent.  The keys of a Python dictionary are pairwise distinct. *)
Fixpoint getitem (d : list (string * Z)) (key : string) : result Z :=
  match d with
  | [] => Raise KeyError
  | (k, v) :: d' => if String.eqb k key then Ok v else getitem d' key
  end.

(** The characters of a string, as one-character strings. *)
Definition chars (s : string) : list string :=
  (fun c => String c "") <$> list_ascii_of_string s.

(** [s.startswith(p)] *)
Definition startswith (s p : string) : bool := String.prefix p s.

(** [c.isspace()] for the characters below 256. *)
Definition isspace (c : ascii) : bool :=
  let n := nat_of_ascii c in
  ((9 <=? n) && (n <=? 13) || (28 <=? n) && (n <=? 32)
   || (n =? 133) || (n =? 160))%nat.

Fixpoint lstrip (s : string) : string :=
  match s with
  | String c s' => if isspace c then lstrip s' else s
  | EmptyString => EmptyString
  end.

Fixpoint rstrip (s : string) : string :=
  match s with
  | EmptyString => EmptyString
  | String c s' =>
      match rstrip s' with
      | EmptyString => if isspace c then EmptyString else String c EmptyString
      | r => String c r
      end
  end.

(** [s.strip()] *)
Definition strip (s : string) : string := rstrip (lstrip s).

(** The pieces of [s] between the occurrences of a non-empty [sep], found
    from left to right; [skip] counts the characters of an occurrence that
    are still to be passed over. *)
Fixpoint split_go (sep : string) (skip : nat) (s : string) : list string :=
  match s with
  | EmptyString => [EmptyString]
  | String c s' =>
      match skip with
      | S k => split_go sep k s'
      | O =>
          if String.prefix sep s
          then EmptyString :: split_go sep (String.length sep - 1) s'
          else match split_go sep 0 s' with
               | w :: ws => String c w :: ws
               | [] => [String c EmptyString]
               end
      end
  end.

(** [s.split(sep)]: [ValueError] on the empty separator. *)
Definition split (s sep : string) : result (list string) :=
  if String.eqb sep "" then Raise ValueError else Ok (split_go sep 0 s).

End Py.

(** ** SequencePadder *)

Section Padding.
Context {A : Type}.

(** The body of the loop of [_pad_sequences]: the padded (or clipped)
    sequence and its reported length. *)
Definition pad_one (pad_tok : A) (max_length : Z) (seq : list A) : list A * Z :=
  let seq_ :=
    if Py.len seq <? max_length
    then Py.slice_to seq max_length
           ++ Py.times pad_tok (Z.max (max_length - Py.len seq) 0)
    else Py.slice_to seq max_length in
  (seq_, Z.min (Py.len seq) max_length).

Definition _pad_sequences (sequences : list (list A)) (pad_tok : A)
    (max_length : Z) : list (list A) * list Z :=
  foldl (fun '(sequence_padded, sequence_length) seq =>
           let '(seq_, n) := pad_one pad_tok max_length seq in
           (sequence_padded ++ [seq_], sequence_length ++ [n]))
        ([], []) sequences.

(** [pad_sequences(sequences, max_length, pad_tok)], the branch
    [nlevels == 1]: the sequences are lists of elements. *)
Definition pad_sequences_nlevels1 (sequences : list (list A))
    (max_length : option Z) (pad_tok : A) : result (list (list A) * list Z) :=
  max_length ←
    match max_length with
    | None => Py.max_of (Py.len <$> sequences)
    | Some m => Ok m
    end;
  Ok (_pad_sequences sequences pad_tok max_length).

(** The loop of the branch [nlevels == 2]: every sentence is padded word
    by word. *)
Definition pad_words (sequences : list (list (list A))) (pad_tok : A)
    (max_length_word : Z) : list (list (list A)) * list (list Z) :=
  foldl (fun '(sequence_padded, sequence_length) seq =>
           let '(sp, sl) := _pad_sequences seq pad_tok max_length_word in
           (sequence_padded ++ [sp], sequence_length ++ [sl]))
        ([], []) sequences.

End Padding.

(** [pad_sequences(sequences, max_length, pad_tok, max_length_word, 2)],
    the branch [nlevels == 2]: the sequences are sentences, lists of words
    that are lists of characters.  (For any other [nlevels] the function
    returns two empty lists.) *)
Definition pad_sequences_nlevels2 {A} (sequences : list (list (list A)))
    (max_length : option Z) (pad_tok : A) (max_length_word : option Z)
    : result (list (list (list A)) * list (list Z)) :=
  max_length_word ←
    match max_length_word with
    | None =>
        ms ← mapM (fun seq => Py.max_of (Py.len <$> seq)) sequences;
        Py.max_of ms
    | Some w => Ok w
    end;
  let '(sequence_padded, sequence_length) :=
    pad_words sequences pad_tok max_length_word in
  max_length_sentence ←
    match max_length with
    | None => Py.max_of (Py.len <$> sequences)
    | Some m => Ok m
    end;
  let '(sequence_padded, _) :=
    _pad_sequences sequence_padded (Py.times pad_tok max_length_word)
                   max_length_sentence in
  let '(sequence_length, _) :=
    _pad_sequences sequence_length 0 max_length_sentence in
  Ok (sequence_padded, sequence_length).

(** ** ChunkExtractor *)

Definition NONE : string := "O".

(** A chunk [(chunk_type, chunk_start, chunk_end)]. *)
Definition chunk : Type := string * nat * nat.

Definition get_chunk_type (tok : Z) (idx_to_tag : gmap Z string)
    : result (string * string) :=
  match idx_to_tag !! tok with
  | None => Raise KeyError
  | Some tag_name =>
      parts ← Py.split tag_name "-";
      tag_class ← Py.index parts 0;
      tag_type ← Py.index parts (-1);
      Ok (tag_class, tag_type)
  end.

(** [{idx: tag for tag, idx in tags.items()}]: a later item replaces an
    earlier one with the same id. *)
Definition invert (tags : list (string * Z)) : gmap Z string :=
  foldl (fun m '(tag, idx) => <[idx := tag]> m) ∅ tags.

(** The variables of the loop of [get_chunks]: the chunks found and the
    open chunk.  [chunk_type] and [chunk_start] are assigned together, so
    one option holds both; it is [None] when [chunk_type is None]. *)
Definition scan_state : Type := list chunk * option (string * nat).

(** One iteration of the loop, at index [i] with tag id [tok]. *)
Definition chunk_step (default : Z) (idx_to_tag : gmap Z string)
    (st : scan_state) (i : nat) (tok : Z) : result scan_state :=
  let '(chunks, open) := st in
  match tok =? default, open with
  | true, Some (chunk_type, chunk_start) =>
      (* End of a chunk *)
      Ok (chunks ++ [(chunk_type, chunk_start, i)], None)
  | false, _ =>
      (* End of a chunk + start of a chunk *)
      '(tok_chunk_class, tok_chunk_type) ← get_chunk_type tok idx_to_tag;
      match open with
      | None => Ok (chunks, Some (tok_chunk_type, i))
      | Some (chunk_type, chunk_start) =>
          if negb (String.eqb tok_chunk_type chunk_type)
             || String.eqb tok_chunk_class "B"
          then Ok (chunks ++ [(chunk_type, chunk_start, i)],
                   Some (tok_chunk_type, i))
          else Ok (chunks, open)
      end
  | true, None => Ok (chunks, open)
  end.

(** The loop over [enumerate(seq)], started at index [i]. *)
Fixpoint scan (default : Z) (idx_to_tag : gmap Z string)
    (st : scan_state) (i : nat) (seq : list Z) : result scan_state :=
  match seq with
  | [] => Ok st
  | tok :: seq' =>
      st' ← chunk_step default idx_to_tag st i tok;
      scan default idx_to_tag st' (S i) seq'
  end.

(** The statement after the loop: an open chunk is closed at [n]. *)
Definition close_last (st : scan_state) (n : nat) : list chunk :=
  match st with
  | (chunks, Some (chunk_type, chunk_start)) =>
      chunks ++ [(chunk_type, chunk_start, n)]
  | (chunks, None) => chunks
  end.

Definition get_chunks (seq : list Z) (tags : list (string * Z))
    : result (list chunk) :=
  default ← Py.getitem tags NONE;
  let idx_to_tag := invert tags in
  st ← scan default idx_to_tag ([], None) 0 seq;
  Ok (close_last st (length seq)).

(** ** WordEncoder *)

Definition UNK : string := "<UNK>".
Definition NUM : string := "<NUM>".
Definition PAD : string := "<PAD>".

(** The library functions the encoder calls on text.  [float_parses s] says
    that [float(s)] returns instead of raising [ValueError];
    [numeric_defined s] says that [unicodedata.numeric(s)] returns instead
    of raising [TypeError] or [ValueError]; [str_lower s] is [s.lower()]. *)
Class PyText : Type := {
  float_parses : string → bool;
  numeric_defined : string → bool;
  str_lower : string → string
}.

Module Re.

(** [[0-9]] *)
Definition digit (c : ascii) : bool :=
  let n := nat_of_ascii c in ((48 <=? n) && (n <=? 57))%nat.

(** [[-+]] *)
Definition sign (c : ascii) : bool :=
  Ascii.eqb c "-" || Ascii.eqb c "+".

(** What is left of [s] after the longest run of digits. *)
Fixpoint digits (s : string) : string :=
  match s with
  | String c s' => if digit c then digits s' else s
  | EmptyString => EmptyString
  end.

(** [[0-9]+]: what is left after a non-empty run of digits.  The run is
    always taken whole: the pattern goes on with a character that is not
    a digit. *)
Definition digits1 (s : string) : option string :=
  match s with
  | String c s' => if digit c then Some (digits s') else None
  | EmptyString => None
  end.

(** The string that holds one newline character. *)
Definition newline : string := String "010" "".

(** [$] without [re.MULTILINE]: at the end of the string, or just before
    a newline that ends the string. *)
Definition at_end (s : string) : bool :=
  String.eqb s "" || String.eqb s newline.

(** [re.compile(r'^[-+]?[0-9]+,[0-9]+$').match(s)] finds a match.  A sign
    is always taken when there is one: without it the pattern would
    need a digit in its place. *)
Definition comma_number (s : string) : bool :=
  let s1 := match s with
            | String c s' => if sign c then s' else s
            | EmptyString => s
            end in
  match digits1 s1 with
  | Some (String "," s2) =>
      match digits1 s2 with
      | Some rest => at_end rest
      | None => false
      end
  | _ => false
  end.

End Re.

(** What the encoder returns, and what a corpus line holds: a string left
    as it is, an id, or a pair of character ids and an id. *)
Inductive token : Type :=
  | Str (s : string)
  | Int (z : Z)
  | Tuple (char_ids : list Z) (word : Z).

(** The fields of a [Processor].  [load_vocab] returns a dictionary or
    raises, so [word_vocab] is never [None]. *)
Record Processor : Type := {
  word_vocab : gmap string Z;
  char_vocab : option (gmap string Z);
  lowercase : bool;
  use_chars : bool;
  allow_unk : bool
}.

Section Encoder.
Context `{PyText}.

Definition is_digit (s : string) : bool :=
  if float_parses s then true
  else if numeric_defined s then true
  else if Re.comma_number s then true
  else false.

(** The ids of the characters of [word] that are in the vocabulary. *)
Definition chars_of (cv : gmap string Z) (word : string) : list Z :=
  foldl (fun char_ids char =>
           match cv !! char with
           | Some id => char_ids ++ [id]
           | None => char_ids
           end)
        [] (Py.chars word).

(** Step 1 of [fit]: the word that is looked up. *)
Definition preprocess (self : Processor) (word : string) : string :=
  let word := if lowercase self then str_lower word else word in
  if is_digit word then NUM else word.

(** Step 2 of [fit]: the id of the processed word. *)
Definition word_id (self : Processor) (word : string) : result Z :=
  match word_vocab self !! word with
  | Some id => Ok id
  | None =>
      if allow_unk self then
        match word_vocab self !! UNK with
        | Some id => Ok id
        | None => Raise KeyError
        end
      else Raise (Exception "Unknown key is not allowed.")
  end.

(** The test [self.char_vocab is not None and self.use_chars is True];
    it gives the character vocabulary when it holds. *)
Definition with_chars (self : Processor) : option (gmap string Z) :=
  match char_vocab self with
  | Some cv => if use_chars self then Some cv else None
  | None => None
  end.

Definition fit (self : Processor) (word : string) : result token :=
  let char_ids :=
    match with_chars self with
    | Some cv => chars_of cv word
    | None => []
    end in
  let word := preprocess self word in
  word ← word_id self word;
  match with_chars self with
  | Some _ => Ok (Tuple char_ids word)
  | None => Ok (Int word)
  end.

(** What [fit] returns for [word] once the id of the word is [id]: the
    id, or the pair of the character ids and the id. *)
Definition encoded (self : Processor) (word : string) (id : Z) : token :=
  match with_chars self with
  | Some cv => Tuple (chars_of cv word) id
  | None => Int id
  end.

End Encoder.

(** ** BatchAssembler *)

(** What iterating over a token gives; an id is not iterable. *)
Inductive item : Type :=
  | IStr (c : string)
  | IInt (z : Z)
  | IList (l : list Z).

Definition iter_token (t : token) : result (list item) :=
  match t with
  | Str s => Ok (IStr <$> Py.chars s)
  | Int _ => Raise TypeError
  | Tuple char_ids word => Ok [IList char_ids; IInt word]
  end.

(** The first [n] tuples that [zip] makes of the columns [cols]; [zip]
    stops at the shortest. *)
Fixpoint zip_rows (n : nat) (cols : list (list item)) : list (list item) :=
  match n with
  | O => []
  | S n' =>
      match mapM head cols with
      | Some row => row :: zip_rows n' (tail <$> cols)
      | None => []
      end
  end.

(** [zip] applied to the tokens of a non-empty [x]. *)
Definition zip_star (x : list token) : result (list (list item)) :=
  cols ← mapM iter_token x;
  Ok (zip_rows (length (default [] (head cols))) cols).

(** An element of [batch_x]: a sentence as it came, or the tuples that the
    [zip] of its tokens gives. *)
Inductive entry : Type :=
  | Plain (x : list token)
  | Zipped (rows : list (list item)).

Definition is_tuple (t : token) : bool :=
  match t with
  | Tuple _ _ => true
  | _ => false
  end.

(** [if type(x[0]) == tuple:] the sentence is replaced by its [zip]. *)
Definition reshape (x : list token) : result entry :=
  x0 ← Py.index x 0;
  if is_tuple x0 then rows ← zip_star x; Ok (Zipped rows)
  else Ok (Plain x).

Section Batches.
Context {Y : Type}.

Definition batch : Type := list entry * list Y.

(** The generator [batch_iter], run over the rest of the dataset with the
    batch under construction: the batches it yields and the exception
    that stops it, if any. *)
Fixpoint batch_loop (batch_size : Z) (batch_x : list entry)
    (batch_y : list Y) (dataset : list (list token * Y))
    : list batch * option exn :=
  match dataset with
  | [] =>
      (if negb (Py.len batch_x =? 0) then [(batch_x, batch_y)] else [],
       None)
  | (x, y) :: dataset' =>
      let '(yielded, batch_x, batch_y) :=
        if Py.len batch_x =? batch_size
        then ([(batch_x, batch_y)], [], [])
        else ([], batch_x, batch_y) in
      match reshape x with
      | Raise e => (yielded, Some e)
      | Ok x =>
          let '(more, stop) :=
            batch_loop batch_size (batch_x ++ [x]) (batch_y ++ [y])
                       dataset' in
          (yielded ++ more, stop)
      end
  end.

Definition batch_iter (dataset : list (list token * Y)) (batch_size : Z)
    : list batch * option exn :=
  batch_loop batch_size [] [] dataset.

End Batches.

(** ** Corpus iteration *)

(** The fields of a [Dataset] that the iteration reads. *)
Record Dataset : Type := {
  filename : string;
  tag_idx : Z;
  word_processor : option Processor;
  tag_processor : option Processor;
  delimiter : string;
  max_iter : option Z
}.

Section Corpus.
Context `{PyText}.

(** The test that ends a sentence, on a stripped line. *)
Definition is_boundary (line : string) : bool :=
  (Z.of_nat (String.length line) =? 0) || Py.startswith line "-DOCSTART-".

(** The [else] branch of the loop: the word and the tag of a line. *)
Definition read_token (self : Dataset) (line : string)
    : result (token * token) :=
  ls ← Py.split line (delimiter self);
  word ← Py.index ls 0;
  tag ← Py.index ls (tag_idx self);
  word ← match word_processor self with
         | Some p => fit p word
         | None => Ok (Str word)
         end;
  tag ← match tag_processor self with
        | Some p => fit p tag
        | None => Ok (Str tag)
        end;
  Ok (word, tag).

(** The generator [Dataset.__iter__] over the rest of the file: the
    sentences it yields and the exception that stops it, if any. *)
Fixpoint iter_loop (self : Dataset) (niter : Z) (words tags : list token)
    (rest : list string) : list (list token * list token) * option exn :=
  match rest with
  | [] => ([], None)
  | line :: rest' =>
      let line := Py.strip line in
      if is_boundary line then
        if negb (Py.len words =? 0) then
          let niter := niter + 1 in
          if match max_iter self with
             | Some m => m <? niter
             | None => false
             end
          then ([], None)
          else
            let '(more, stop) := iter_loop self niter [] [] rest' in
            ((words, tags) :: more, stop)
        else iter_loop self niter words tags rest'
      else
        match read_token self line with
        | Raise e => ([], Some e)
        | Ok (word, tag) =>
            iter_loop self niter (words ++ [word]) (tags ++ [tag]) rest'
        end
  end.

(** [Dataset.__iter__], where [f] holds the lines of the file
    [filename], in order, as the iteration over the open file gives
    them. *)
Definition Dataset_iter (self : Dataset) (f : list string)
    : list (list token * list token) * option exn :=
  iter_loop self 0 [] [] f.

End Corpus.

(** [Dataset.__len__], where [length] is the field [self.length] before
    the call: the value returned or the exception raised, and the field
    after the call.  The field is set to [0] and then incremented once per
    sentence, so it keeps the count reached when the iteration raises. *)
Definition Dataset_len `{PyText} (self : Dataset) (length : option Z)
    (f : list string) : result Z * option Z :=
  match length with
  | Some n => (Ok n, Some n)
  | None =>
      let '(sentences, stop) := Dataset_iter self f in
      let n := Py.len sentences in
      match stop with
      | None => (Ok n, Some n)
      | Some e => (Raise e, Some n)
      end
  end.

(** ** Vocabulary files *)

(** The loop of [load_vocab] over [enumerate(f)], started at index [idx]:
    a later line replaces an earlier one that holds the same word. *)
Fixpoint vocab_loop (d : gmap string Z) (idx : nat) (f : list string)
    : gmap string Z :=
  match f with
  | [] => d
  | word :: f' => vocab_loop (<[Py.strip word := Z.of_nat idx]> d) (S idx) f'
  end.

(** [load_vocab(filename)], where [f] holds the lines of the file, or is
    [None] when opening it raises [IOError].  The handler raises a string,
    which is not an exception: Python raises [TypeError] in its place. *)
Definition load_vocab (f : option (list string)) : result (gmap string Z) :=
  match f with
  | Some f => Ok (vocab_loop ∅ 0 f)
  | None => Raise TypeError
  end.

(** [Processor.__init__]: [word_file] is the file at [word_vocab_path];
    [char_file] is [None] when [char_vocab_path] is [None], and the file at
    that path otherwise. *)
Definition Processor_init (word_file : option (list string))
    (char_file : option (option (list string)))
    (lowercase use_chars allow_unk : bool) : result Processor :=
  word_vocab ← load_vocab word_file;
  char_vocab ← match char_file with
               | Some f => cv ← load_vocab f; Ok (Some cv)
               | None => Ok None
               end;
  Ok {| word_vocab := word_vocab; char_vocab := char_vocab;
        lowercase := lowercase; use_chars := use_chars;
        allow_unk := allow_unk |}.

(** ** Vocabulary of the specification *)

(** The target length of a padding: the one given, or else the largest of
    the lengths [lens]. *)
Definition is_target (given : option Z) (lens : list Z) (t : Z) : Prop :=
  match given with
  | Some g => t = g
  | None => t ∈ lens ∧ Forall (fun n => n ≤ t) lens
  end.

(** The chunks lie in this order between [lo] and [hi], each with
    [start < end], none overlapping the next. *)
Fixpoint spans_from (lo : nat) (chunks : list chunk) (hi : nat) : Prop :=
  match chunks with
  | [] => (lo ≤ hi)%nat
  | (_, chunk_start, chunk_end) :: chunks' =>
      (lo ≤ chunk_start)%nat ∧ (chunk_start < chunk_end)%nat ∧
      spans_from chunk_end chunks' hi
  end.

(** Index [k] lies in the span of one of the chunks. *)
Definition covers (chunks : list chunk) (k : nat) : Prop :=
  Exists (fun c : chunk => (c.1.2 ≤ k)%nat ∧ (k < c.2)%nat) chunks.

(** Index [k] of the sequence carries a tag other than the default one. *)
Definition tagged (default : Z) (seq : list Z) (k : nat) : Prop :=
  ∃ tok, seq !! k = Some tok ∧ tok ≠ default.

(** What the loop of [get_chunks] maintains, after the prefix [pre]: the
    chunks found lie in order before the point [b] where the open chunk
    starts (the end of the prefix when none is open), they cover the
    tagged indices before [b], and every index from [b] on is tagged. *)
Definition scan_inv (default : Z) (pre : list Z) (st : scan_state) : Prop :=
  let n := length pre in
  let b := match st.2 with Some (_, start) => start | None => n end in
  spans_from 0 st.1 b ∧ (b ≤ n)%nat ∧ (is_Some st.2 → (b < n)%nat) ∧
  (∀ k, (k < b)%nat → covers st.1 k ↔ tagged default pre k) ∧
  (∀ k, (b ≤ k)%nat → (k < n)%nat → tagged default pre k).

(** The tag names, from index [i] up to [n], of a sequence that holds the
    chunks: [B-type] where a chunk starts, [I-type] inside it, [O]
    elsewhere. *)
Fixpoint encode (i : nat) (chunks : list chunk) (n : nat) : list string :=
  match chunks with
  | [] => replicate (n - i) NONE
  | (chunk_type, chunk_start, chunk_end) :: chunks' =>
      replicate (chunk_start - i) NONE
        ++ [("B-" ++ chunk_type)%string]
        ++ replicate (chunk_end - chunk_start - 1) ("I-" ++ chunk_type)%string
        ++ encode chunk_end chunks' n
  end.

(** The string holds no [-]. *)
Fixpoint no_dash (s : string) : bool :=
  match s with
  | EmptyString => true
  | String c s' => negb (Ascii.eqb c "-") && no_dash s'
  end.

(** The chunk that an open chunk becomes when it is closed at [i]. *)
Definition pending (open : option (string * nat)) (i : nat) : list chunk :=
  match open with
  | Some (chunk_type, chunk_start) => [(chunk_type, chunk_start, i)]
  | None => []
  end.

(** The id of a tag name under [tags], for the names that [tags] holds. *)
Definition id_of (tags : list (string * Z)) (name : string) : Z :=
  match Py.getitem tags name with
  | Ok id => id
  | Raise _ => 0
  end.

Definition known (tags : list (string * Z)) (name : string) : Prop :=
  Py.getitem tags name = Ok (id_of tags name).

(** The string is made of characters [0] to [9]. *)
Fixpoint all_digits (s : string) : bool :=
  match s with
  | EmptyString => true
  | String c s' => Re.digit c && all_digits s'
  end.

(** The third condition of the numeric classification, in the words of
    the specification: an optional sign, one or more digits, a comma, and
    one or more digits. *)
Definition signed_comma_number (s : string) : Prop :=
  ∃ sg d1 d2 : string,
    (sg = "" ∨ sg = "-" ∨ sg = "+") ∧
    d1 ≠ "" ∧ all_digits d1 = true ∧
    d2 ≠ "" ∧ all_digits d2 = true ∧
    s = (sg ++ d1 ++ "," ++ d2)%string.

(** Two tokens have the same shape. *)
Definition same_shape (t1 t2 : token) : bool :=
  match t1, t2 with
  | Str _, Str _ | Int _, Int _ | Tuple _ _, Tuple _ _ => true
  | _, _ => false
  end.

(** A sentence as one processor encodes it: not empty, and all its tokens
    of one shape. *)
Definition uniform (x : list token) : Prop :=
  ∃ t x', x = t :: x' ∧ Forall (fun t' => same_shape t t' = true) x'.

(** Every list but the last has [n] elements; the last has between [1] and
    [n]. *)
Fixpoint full_then_last {X} (n : Z) (bs : list (list X)) : Prop :=
  match bs with
  | [] => True
  | b :: bs' =>
      match bs' with
      | [] => 1 ≤ Py.len b ∧ Py.len b ≤ n
      | _ :: _ => Py.len b = n ∧ full_then_last n bs'
      end
  end.

(** Every index of [start, stop) carries a non-default tag of type [ty],
    and none after [start] carries the prefix [B]. *)
Definition run_of (default : Z) (idx_to_tag : gmap Z string) (seq : list Z)
    (ty : string) (start stop : nat) : Prop :=
  ∀ k, (start ≤ k)%nat → (k < stop)%nat →
    ∃ tok cls, seq !! k = Some tok ∧ tok ≠ default ∧
               get_chunk_type tok idx_to_tag = Ok (cls, ty) ∧
               ((start < k)%nat → cls ≠ "B").

(** The tag at index [stop] cannot continue a chunk of type [ty]: it is the
    default tag, or a tag of another type, or a tag with the prefix [B]. *)
Definition stops_at (default : Z) (idx_to_tag : gmap Z string)
    (seq : list Z) (ty : string) (stop : nat) : Prop :=
  ∃ tok, seq !! stop = Some tok ∧
    (tok = default ∨
     ∃ cls ty', get_chunk_type tok idx_to_tag = Ok (cls, ty') ∧
                (ty' ≠ ty ∨ cls = "B")).

(** What the loop of [get_chunks] maintains about the tags of the chunks,
    after the prefix [pre]. *)
Definition run_inv (default : Z) (idx_to_tag : gmap Z string)
    (pre : list Z) (st : scan_state) : Prop :=
  Forall (fun c : chunk =>
            run_of default idx_to_tag pre c.1.1 c.1.2 c.2 ∧
            stops_at default idx_to_tag pre c.1.1 c.2) st.1 ∧
  match st.2 with
  | Some (ty, start) =>
      (start < length pre)%nat ∧
      run_of default idx_to_tag pre ty start (length pre)
  | None => True
  end.

(** [sep.join(l)] *)
Fixpoint join (sep : string) (l : list string) : string :=
  match l with
  | [] => EmptyString
  | x :: l' =>
      match l' with
      | [] => x
      | _ :: _ => (x ++ sep ++ join sep l')%string
      end
  end.

(** The shape of the tokens that a corpus column holds: strings without
    a processor, and otherwise what the processor returns, pairs when it
    gives character ids and ids when it does not. *)
Definition shaped (p : option Processor) (t : token) : Prop :=
  match p with
  | None => ∃ s, t = Str s
  | Some p =>
      match with_chars p with
      | Some _ => ∃ char_ids word, t = Tuple char_ids word
      | None => ∃ word, t = Int word
      end
  end.

(** The dataset [self] with [max_iter] set to [m]. *)
Definition with_max_iter (self : Dataset) (m : option Z) : Dataset := {|
  filename := filename self;
  tag_idx := tag_idx self;
  word_processor := word_processor self;
  tag_processor := tag_processor self;
  delimiter := delimiter self;
  max_iter := m
|}.

(** The string holds no whitespace. *)
Fixpoint no_space (s : string) : bool :=
  match s with
  | EmptyString => true
  | String c s' => negb (Py.isspace c) && no_space s'
  end.

(** A corpus file written from sentences of (word, tag) pairs: one line
    [word tag] per token, and an empty line after every sentence. *)
Definition token_line (word tag : string) : string :=
  (word ++ " " ++ tag ++ Re.newline)%string.

Definition format_sentence (sentence : list (string * string))
    : list string :=
  ((fun q => token_line q.1 q.2) <$> sentence) ++ [Re.newline].

Definition format_corpus (sentences : list (list (string * string)))
    : list string :=
  concat (format_sentence <$> sentences).

(** A token that can be written on a line and read back: the word and
    the tag are not empty and hold no whitespace, and the word does not
    start with the document mark. *)
Definition writable (q : string * string) : Prop :=
  q.1 ≠ "" ∧ no_space q.1 = true ∧ q.2 ≠ "" ∧ no_space q.2 = true ∧
  String.prefix "-DOCSTART-" q.1 = false.

(** ** An instance for the examples *)

(** The examples below run the encoder on a few words.  The instance
    [ascii_text] serves them and nothing else: it is not a model of the
    library functions.  It takes a string for a float when it is a
    non-empty string of digits, gives a numeric value to a single digit,
    and lowercases [A] to [Z]; Python's [float] also accepts signs,
    fractions, exponents, [inf] and [nan], and [lower] acts on more
    letters.  The examples use words on which the instance and Python
    agree; the theorems hold for every instance. *)
Definition lower_char (c : ascii) : ascii :=
  let n := nat_of_ascii c in
  if ((65 <=? n) && (n <=? 90))%nat then ascii_of_nat (n + 32) else c.

Fixpoint lower_ascii (s : string) : string :=
  match s with
  | EmptyString => EmptyString
  | String c s' => String (lower_char c) (lower_ascii s')
  end.

#[global] Instance ascii_text : PyText := {|
  float_parses s := negb (String.eqb s "") && all_digits s;
  numeric_defined s :=
    match s with
    | String c EmptyString => Re.digit c
    | _ => false
    end;
  str_lower := lower_ascii
|}.

Definition sample_vocab : gmap string Z :=
  list_to_map [("<PAD>", 0); ("<UNK>", 1); ("<NUM>", 2); ("the", 3)].

Definition sample_chars : gmap string Z :=
  list_to_map [("a", 1); ("b", 2)].

Definition sample_processor (allow : bool) : Processor := {|
  word_vocab := sample_vocab;
  char_vocab := None;
  lowercase := true;
  use_chars := false;
  allow_unk := allow
|}.

(** A corpus reader that keeps words and tags as strings, with the tag in
    the second column. *)
Definition sample_dataset : Dataset := {|
  filename := "train.txt";
  tag_idx := 1;
  word_processor := None;
  tag_processor := None;
  delimiter := " ";
  max_iter := None
|}.

(** ** Properties *)

Section PaddingFacts.
Context {A : Type}.
Implicit Types (seq : list A) (sequences : list (list A)).

Lemma pad_loop_acc sequences (p : A) m ps ls :
  foldl (fun '(sequence_padded, sequence_length) seq =>
           let '(seq_, n) := pad_one p m seq in
           (sequence_padded ++ [seq_], sequence_length ++ [n]))
        (ps, ls) sequences
  = (ps ++ ((fun s => (pad_one p m s).1) <$> sequences),
     ls ++ ((fun s => (pad_one p m s).2) <$> sequences)).
Proof.
  revert ps ls. induction sequences as [|s ss IH]; intros ps ls; simpl.
  - by rewrite !app_nil_r.
  - rewrite IH. by rewrite <- !app_assoc.
Qed.

Lemma _pad_sequences_map sequences (p : A) m :
  _pad_sequences sequences p m
  = ((fun s => (pad_one p m s).1) <$> sequences,
     (fun s => (pad_one p m s).2) <$> sequences).
Proof. unfold _pad_sequences. by rewrite pad_loop_acc. Qed.

Lemma pad_one_length (p : A) m seq :
  0 ≤ m → Py.len (pad_one p m seq).1 = m.
Proof.
  intros Hm. unfold pad_one, Py.slice_to, Py.times, Py.len. simpl.
  assert ((m <? 0) = false) as -> by lia.
  destruct (Z.ltb_spec (Z.of_nat (length seq)) m).
  - rewrite length_app, length_take, length_replicate. lia.
  - rewrite length_take. lia.
Qed.

Lemma pad_one_short (p : A) m seq :
  Py.len seq ≤ m →
  (pad_one p m seq).1 = seq ++ replicate (Z.to_nat m - length seq)%nat p.
Proof.
  intros Hm. unfold pad_one, Py.slice_to, Py.times, Py.len in *. simpl.
  assert ((m <? 0) = false) as -> by lia.
  rewrite take_ge by lia.
  destruct (Z.ltb_spec (Z.of_nat (length seq)) m).
  - f_equal. f_equal. lia.
  - replace (Z.to_nat m - length seq)%nat with 0%nat by lia.
    by rewrite app_nil_r.
Qed.

Lemma pad_one_long (p : A) m seq :
  0 ≤ m → m < Py.len seq →
  (pad_one p m seq).1 = take (Z.to_nat m) seq.
Proof.
  intros Hm Hlt. unfold pad_one, Py.slice_to, Py.len in *. simpl.
  assert ((m <? 0) = false) as -> by lia.
  by assert ((Z.of_nat (length seq) <? m) = false) as -> by lia.
Qed.

End PaddingFacts.

(** *** Single-level padding *)

Section PaddingSpec.
Context {A : Type}.
Implicit Types (seq s r : list A) (sequences : list (list A)).

(** C1. For a target length [m >= 0], [_pad_sequences] returns one padded
    sequence and one length per input sequence, in order.  The sequence
    [r] returned for [s] has exactly [m] elements; when [m >= len(s)] its
    first [len(s)] elements are [s] and the other [m - len(s)] are the
    pad value; when [m < len(s)] it is the first [m] elements of [s]; the
    reported length is [min(len(s), m)]. *)
Theorem pad_sequences_postcondition sequences (p : A) (m : Z) :
  0 ≤ m →
  length (_pad_sequences sequences p m).1 = length sequences ∧
  length (_pad_sequences sequences p m).2 = length sequences ∧
  ∀ (i : nat) s, sequences !! i = Some s →
    ∃ r, (_pad_sequences sequences p m).1 !! i = Some r ∧
         Py.len r = m ∧
         (Py.len s ≤ m →
            take (length s) r = s ∧
            drop (length s) r = replicate (Z.to_nat (m - Py.len s)) p) ∧
         (m < Py.len s → r = take (Z.to_nat m) s) ∧
         (_pad_sequences sequences p m).2 !! i = Some (Z.min (Py.len s) m).
Proof.
  intros Hm. rewrite _pad_sequences_map. cbn [fst snd].
  rewrite !length_fmap. split; [done|]. split; [done|].
  intros i s Hs. exists (pad_one p m s).1.
  rewrite !list_lookup_fmap, Hs. cbn [fmap option_fmap option_map].
  split; [done|]. split; [by apply pad_one_length|].
  split; [|split; [|done]].
  - intros Hle. rewrite pad_one_short by done.
    rewrite take_app_length, drop_app_length. split; [done|].
    f_equal. unfold Py.len. lia.
  - intros Hlt. by apply pad_one_long.
Qed.

End PaddingSpec.

Lemma pad_sequences_postcondition_witness :
  length (_pad_sequences [[1; 2; 3]; [7]] 0 2).1 = 2%nat ∧
  length (_pad_sequences [[1; 2; 3]; [7]] 0 2).2 = 2%nat ∧
  ∀ (i : nat) s, [[1; 2; 3]; [7]] !! i = Some s →
    ∃ r, (_pad_sequences [[1; 2; 3]; [7]] 0 2).1 !! i = Some r ∧
         Py.len r = 2 ∧
         (Py.len s ≤ 2 →
            take (length s) r = s ∧
            drop (length s) r = replicate (Z.to_nat (2 - Py.len s)) 0) ∧
         (2 < Py.len s → r = take (Z.to_nat 2) s) ∧
         (_pad_sequences [[1; 2; 3]; [7]] 0 2).2 !! i
           = Some (Z.min (Py.len s) 2).
Proof. apply (pad_sequences_postcondition [[1; 2; 3]; [7]] 0 2). lia. Defined.


(** *** Padding without a target length *)

Lemma max_of_spec (l : list Z) :
  l ≠ [] → ∃ m, Py.max_of l = Ok m ∧ m ∈ l ∧ Forall (fun n => n ≤ m) l.
Proof.
  destruct l as [|x l]; [done|]. intros _. simpl.
  exists (foldl Z.max x l). split; [done|].
  assert (∀ a, (foldl Z.max a l = a ∨ foldl Z.max a l ∈ l) ∧
               a ≤ foldl Z.max a l ∧
               Forall (fun n => n ≤ foldl Z.max a l) l) as Hgen.
  { induction l as [|y l IH]; intros a; simpl.
    - split; [by left|]. split; [lia|constructor].
    - destruct (IH (Z.max a y)) as (Hin & Hle & Hall).
      split; [|split; [lia|constructor; [lia|done]]].
      destruct Hin as [Heq|Hin]; [|right; by right].
      rewrite Heq. destruct (Z.max_spec a y) as [[_ ->]|[_ ->]];
        [right; by left|by left]. }
  destruct (Hgen x) as (Hin & Hle & Hall).
  split; [|constructor; done].
  destruct Hin as [->|Hin]; [by left|by right].
Qed.

(** C9. Padding the empty list of sequences with no target length raises
    [ValueError], in the branch [nlevels == 1] and, whether a word length
    is given or not, in the branch [nlevels == 2]: nothing is returned. *)
Theorem pad_sequences_empty_fails {A} (p : A) (max_length_word : option Z) :
  pad_sequences_nlevels1 [] None p = Raise ValueError ∧
  pad_sequences_nlevels2 [] None p max_length_word = Raise ValueError.
Proof. split; [done|]. by destruct max_length_word. Qed.

(** *** Two-level padding *)

Lemma pad_one_take {A} (p : A) m (seq : list A) :
  0 ≤ m →
  (pad_one p m seq).1
  = take (Z.to_nat m) seq ++ replicate (Z.to_nat m - length seq)%nat p.
Proof.
  intros Hm. destruct (Z.le_gt_cases (Py.len seq) m) as [Hle|Hgt].
  - rewrite pad_one_short by done. unfold Py.len in Hle.
    by rewrite take_ge by lia.
  - rewrite pad_one_long by lia. unfold Py.len in Hgt.
    replace (Z.to_nat m - length seq)%nat with 0%nat by lia.
    by rewrite app_nil_r.
Qed.

Lemma pad_words_map {A} (sequences : list (list (list A))) (p : A) w :
  pad_words sequences p w
  = ((fun seq => (_pad_sequences seq p w).1) <$> sequences,
     (fun seq => (_pad_sequences seq p w).2) <$> sequences).
Proof.
  unfold pad_words.
  assert (∀ ps ls,
    foldl (fun '(sequence_padded, sequence_length) seq =>
             let '(sp, sl) := _pad_sequences seq p w in
             (sequence_padded ++ [sp], sequence_length ++ [sl]))
          (ps, ls) sequences
    = (ps ++ ((fun seq => (_pad_sequences seq p w).1) <$> sequences),
       ls ++ ((fun seq => (_pad_sequences seq p w).2) <$> sequences))) as Hacc.
  { induction sequences as [|s ss IH]; intros ps ls; simpl.
    - by rewrite !app_nil_r.
    - destruct (_pad_sequences s p w) as [sp sl] eqn:E. rewrite IH.
      by rewrite <- !app_assoc. }
  by rewrite Hacc.
Qed.

Lemma mapM_max_of {A} (sequences : list (list (list A))) :
  Forall (fun sent => sent ≠ []) sequences →
  ∃ ms, mapM (fun seq => Py.max_of (Py.len <$> seq)) sequences = Ok ms ∧
        length ms = length sequences ∧
        Forall (fun m => m ∈ Py.len <$> concat sequences) ms ∧
        Forall (fun n => Exists (fun m => n ≤ m) ms)
               (Py.len <$> concat sequences).
Proof.
  induction 1 as [|sent ss Hne _ IH].
  - exists []. repeat split; constructor.
  - destruct IH as (ms & Hms & Hlen & Hin & Hle).
    destruct (max_of_spec (Py.len <$> sent)) as (m & Hm & Hmin & Hmle).
    { by destruct sent. }
    exists (m :: ms). cbn [mapM]. rewrite Hm. cbn. rewrite Hms. cbn.
    split; [done|]. split; [by rewrite Hlen|].
    rewrite fmap_app. split.
    + constructor; [apply elem_of_app; by left|].
      eapply Forall_impl; [exact Hin|]. intros x Hx.
      apply elem_of_app; by right.
    + apply Forall_app. split.
      * eapply Forall_impl; [exact Hmle|]. intros x Hx. by left.
      * eapply Forall_impl; [exact Hle|]. intros x Hx. by right.
Qed.

(** C4. For a non-empty list of non-empty sentences, and target lengths
    that are not negative when they are given, the branch [nlevels == 2] of
    [pad_sequences] returns, for the word target [W] and the sentence
    target [S] (given, or else the largest length), one padded sentence and
    one list of lengths per sentence: every padded sentence has exactly [S]
    words, every word exactly [W] characters, every list of lengths exactly
    [S] entries; a sentence shorter than [S] is completed with words of [W]
    pad values and its lengths with [0]. *)
Theorem pad_sequences_two_level_shape {A} (sequences : list (list (list A)))
    (max_length : option Z) (p : A) (max_length_word : option Z) :
  sequences ≠ [] →
  Forall (fun sent => sent ≠ []) sequences →
  (∀ w, max_length_word = Some w → 0 ≤ w) →
  (∀ s, max_length = Some s → 0 ≤ s) →
  ∃ W S padded lengths,
    pad_sequences_nlevels2 sequences max_length p max_length_word
      = Ok (padded, lengths) ∧
    is_target max_length_word (Py.len <$> concat sequences) W ∧
    is_target max_length (Py.len <$> sequences) S ∧
    length padded = length sequences ∧
    length lengths = length sequences ∧
    Forall (fun sent => Py.len sent = S ∧
                        Forall (fun word => Py.len word = W) sent) padded ∧
    Forall (fun ls => Py.len ls = S) lengths ∧
    ∀ (i : nat) sent, sequences !! i = Some sent → Py.len sent ≤ S →
      ∃ ps ls, padded !! i = Some ps ∧ lengths !! i = Some ls ∧
        drop (length sent) ps
          = replicate (Z.to_nat (S - Py.len sent)) (replicate (Z.to_nat W) p) ∧
        drop (length sent) ls = replicate (Z.to_nat (S - Py.len sent)) 0.
Proof.
  intros Hne Hsent HW HS.
  assert (∃ W, match max_length_word with
               | None =>
                   ms ← mapM (fun seq => Py.max_of (Py.len <$> seq)) sequences;
                   Py.max_of ms
               | Some w => Ok w
               end = Ok W ∧
               is_target max_length_word (Py.len <$> concat sequences) W ∧
               0 ≤ W) as (W & HeW & HtW & HW0).
  { destruct max_length_word as [w|]; [exists w; repeat split; by apply HW|].
    destruct (mapM_max_of sequences Hsent) as (ms & -> & Hlen & Hin & Hle).
    cbn [mbind result_bind].
    destruct (max_of_spec ms) as (W & -> & HWin & HWle).
    { destruct ms; [|done]. destruct sequences; done. }
    exists W. split; [done|].
    rewrite Forall_forall in Hin. specialize (Hin W HWin).
    split; [split; [done|]|].
    - rewrite Forall_forall in Hle, HWle. apply Forall_forall. intros n Hn.
      apply Hle, Exists_exists in Hn as (m & Hm & Hnm).
      specialize (HWle m Hm). simpl in HWle. lia.
    - apply list_elem_of_fmap in Hin as (word & -> & _). unfold Py.len. lia. }
  assert (∃ S, match max_length with
               | None => Py.max_of (Py.len <$> sequences)
               | Some m => Ok m
               end = Ok S ∧
               is_target max_length (Py.len <$> sequences) S ∧
               0 ≤ S) as (S & HeS & HtS & HS0).
  { destruct max_length as [s|]; [exists s; repeat split; by apply HS|].
    destruct (max_of_spec (Py.len <$> sequences)) as (S & -> & HSin & HSle).
    { by destruct sequences. }
    exists S. split; [done|]. split; [done|].
    apply list_elem_of_fmap in HSin as (sent & -> & _). unfold Py.len. lia. }
  unfold pad_sequences_nlevels2. rewrite HeW. cbn [mbind result_bind].
  rewrite pad_words_map, HeS. cbn [mbind result_bind].
  rewrite !_pad_sequences_map.
  eexists W, S, _, _. split; [reflexivity|].
  split; [done|]. split; [done|].
  rewrite !length_fmap. split; [done|]. split; [done|].
  split; [|split].
  - rewrite <- !list_fmap_compose. apply Forall_fmap, Forall_forall.
    intros sent _. cbn [compose]. split; [by apply pad_one_length|].
    rewrite pad_one_take by done. apply Forall_app. split.
    + apply Forall_take. rewrite _pad_sequences_map. cbn [fst].
      apply Forall_fmap, Forall_forall. intros word _.
      by apply pad_one_length.
    + apply Forall_replicate. unfold Py.times, Py.len.
      rewrite length_replicate. lia.
  - rewrite <- !list_fmap_compose. apply Forall_fmap, Forall_forall.
    intros sent _. cbn [compose]. by apply (pad_one_length 0 S).
  - intros i sent Hi Hle. eexists _, _.
    rewrite <- !list_fmap_compose, !list_lookup_fmap, Hi.
    cbn [fmap option_fmap option_map compose].
    split; [reflexivity|]. split; [reflexivity|].
    unfold Py.len in Hle.
    rewrite !pad_one_take, !_pad_sequences_map by done. cbn [fst snd].
    rewrite !take_ge by (rewrite length_fmap; lia).
    rewrite !drop_app_length' by (by rewrite length_fmap).
    rewrite !length_fmap. unfold Py.times, Py.len.
    split; f_equal; lia.
Qed.


Lemma pad_sequences_two_level_shape_witness :
  ∃ W S padded lengths,
    pad_sequences_nlevels2 [[[1; 2; 3]; [7]]; [[4]]] None 0 None
      = Ok (padded, lengths) ∧
    is_target None (Py.len <$> concat [[[1; 2; 3]; [7]]; [[4]]]) W ∧
    is_target None (Py.len <$> [[[1; 2; 3]; [7]]; [[4]]]) S ∧
    length padded = 2%nat ∧
    length lengths = 2%nat ∧
    Forall (fun sent => Py.len sent = S ∧
                        Forall (fun word => Py.len word = W) sent) padded ∧
    Forall (fun ls => Py.len ls = S) lengths ∧
    ∀ (i : nat) sent,
      [[[1; 2; 3]; [7]]; [[4]]] !! i = Some sent → Py.len sent ≤ S →
      ∃ ps ls, padded !! i = Some ps ∧ lengths !! i = Some ls ∧
        drop (length sent) ps
          = replicate (Z.to_nat (S - Py.len sent)) (replicate (Z.to_nat W) 0) ∧
        drop (length sent) ls = replicate (Z.to_nat (S - Py.len sent)) 0.
Proof.
  apply (pad_sequences_two_level_shape [[[1; 2; 3]; [7]]; [[4]]] None 0 None).
  - discriminate.
  - repeat constructor; discriminate.
  - intros w Hw. discriminate Hw.
  - intros s Hs. discriminate Hs.
Defined.

(** *** Chunk extraction: the loop *)

Lemma scan_app d idx st i (l1 l2 : list Z) :
  scan d idx st i (l1 ++ l2)
  = st' ← scan d idx st i l1; scan d idx st' (i + length l1) l2.
Proof.
  revert st i. induction l1 as [|tok l1 IH]; intros st i; simpl.
  - by rewrite Nat.add_0_r.
  - destruct (chunk_step d idx st i tok) as [st'|e]; simpl; [|done].
    rewrite IH. by replace (S i + length l1)%nat with (i + S (length l1))%nat by lia.
Qed.

Lemma scan_snoc d idx st i (l : list Z) tok :
  scan d idx st i (l ++ [tok])
  = st' ← scan d idx st i l; chunk_step d idx st' (i + length l) tok.
Proof.
  rewrite scan_app. destruct (scan d idx st i l) as [st'|e]; simpl; [|done].
  by destruct (chunk_step d idx st' (i + length l) tok).
Qed.

Lemma step_default_closed d idx chunks i :
  chunk_step d idx (chunks, None) i d = Ok (chunks, None).
Proof. unfold chunk_step. by rewrite Z.eqb_refl. Qed.

Lemma step_default_open d idx chunks ty start i :
  chunk_step d idx (chunks, Some (ty, start)) i d
  = Ok (chunks ++ [(ty, start, i)], None).
Proof. unfold chunk_step. by rewrite Z.eqb_refl. Qed.

Lemma step_begin d idx chunks i tok cls ty :
  tok ≠ d → get_chunk_type tok idx = Ok (cls, ty) →
  chunk_step d idx (chunks, None) i tok = Ok (chunks, Some (ty, i)).
Proof.
  intros Hne Hty. unfold chunk_step.
  apply Z.eqb_neq in Hne. rewrite Hne, Hty. done.
Qed.

Lemma step_switch d idx chunks ty0 start i tok cls ty :
  tok ≠ d → get_chunk_type tok idx = Ok (cls, ty) →
  ty ≠ ty0 ∨ cls = "B" →
  chunk_step d idx (chunks, Some (ty0, start)) i tok
  = Ok (chunks ++ [(ty0, start, i)], Some (ty, i)).
Proof.
  intros Hne Hty Hsw. unfold chunk_step.
  apply Z.eqb_neq in Hne. rewrite Hne, Hty. cbn.
  destruct Hsw as [Hsw| ->].
  - apply String.eqb_neq in Hsw. by rewrite Hsw.
  - by rewrite orb_true_r.
Qed.

Lemma step_continue d idx chunks ty start i tok cls :
  tok ≠ d → get_chunk_type tok idx = Ok (cls, ty) → cls ≠ "B" →
  chunk_step d idx (chunks, Some (ty, start)) i tok
  = Ok (chunks, Some (ty, start)).
Proof.
  intros Hne Hty Hcls. unfold chunk_step.
  apply Z.eqb_neq in Hne. rewrite Hne, Hty. cbn.
  rewrite String.eqb_refl. apply String.eqb_neq in Hcls. by rewrite Hcls.
Qed.

Lemma scan_all_default d idx chunks i (seq : list Z) :
  Forall (fun tok => tok = d) seq →
  scan d idx (chunks, None) i seq = Ok (chunks, None).
Proof.
  intros Hall. revert i. induction Hall as [|tok seq -> _ IH]; intros i.
  - done.
  - cbn [scan]. rewrite step_default_closed. apply IH.
Qed.

(** C2. Under a tag mapping that holds [O], [get_chunks] returns the empty
    list on a sequence of default ids; when the loop reaches position
    [len(pre)] with a chunk open and a tag whose decoded type differs from
    the open type or whose decoded prefix is [B], it closes the open chunk
    at that position and opens one of the decoded type there; so two
    adjacent [B-] tags of one type give two chunks; a chunk open after the
    loop is closed at [len(seq)]. *)
Theorem get_chunks_transitions (tags : list (string * Z)) (default : Z) :
  Py.getitem tags NONE = Ok default →
  (∀ seq, Forall (fun tok => tok = default) seq → get_chunks seq tags = Ok [])
  ∧ (∀ pre tok chunks ty0 start cls ty,
       scan default (invert tags) ([], None) 0 pre
         = Ok (chunks, Some (ty0, start)) →
       tok ≠ default →
       get_chunk_type tok (invert tags) = Ok (cls, ty) →
       ty ≠ ty0 ∨ cls = "B" →
       scan default (invert tags) ([], None) 0 (pre ++ [tok])
         = Ok (chunks ++ [(ty0, start, length pre)], Some (ty, length pre)))
  ∧ (∀ b ty,
       b ≠ default → get_chunk_type b (invert tags) = Ok ("B", ty) →
       get_chunks [b; b; default] tags
         = Ok [(ty, 0%nat, 1%nat); (ty, 1%nat, 2%nat)])
  ∧ (∀ seq chunks ty0 start,
       scan default (invert tags) ([], None) 0 seq
         = Ok (chunks, Some (ty0, start)) →
       get_chunks seq tags = Ok (chunks ++ [(ty0, start, length seq)])).
Proof.
  intros Hd. repeat split.
  - intros seq Hall. unfold get_chunks. rewrite Hd. cbn [mbind result_bind].
    by rewrite scan_all_default.
  - intros pre tok chunks ty0 start cls ty Hpre Hne Hty Hsw.
    rewrite scan_snoc, Hpre. cbn [mbind result_bind].
    by rewrite (step_switch _ _ _ _ _ _ _ cls ty).
  - intros b ty Hne Hty. unfold get_chunks. rewrite Hd. cbn [mbind result_bind scan].
    rewrite (step_begin _ _ _ _ _ "B" ty) by done. cbn [mbind result_bind].
    rewrite (step_switch _ _ _ _ _ _ _ "B" ty) by auto. cbn [mbind result_bind].
    by rewrite step_default_open.
  - intros seq chunks ty0 start Hscan. unfold get_chunks.
    rewrite Hd. cbn [mbind result_bind]. by rewrite Hscan.
Qed.

Lemma get_chunks_transitions_witness :
  get_chunks [1; 1; 0] [("B-PER", 1); ("O", 0)]
  = Ok [("PER", 0%nat, 1%nat); ("PER", 1%nat, 2%nat)].
Proof.
  destruct (get_chunks_transitions [("B-PER", 1); ("O", 0)] 0 eq_refl)
    as (_ & _ & Hbb & _).
  apply (Hbb 1 "PER"); [lia | reflexivity].
Defined.


(** *** Chunk extraction: order and coverage *)

Lemma spans_from_mono lo chunks hi hi' :
  spans_from lo chunks hi → (hi ≤ hi')%nat → spans_from lo chunks hi'.
Proof.
  revert lo. induction chunks as [|[[t s] e] cs IH]; intros lo; simpl.
  - lia.
  - intros (? & ? & ?) ?. split; [done|]. split; [done|]. by apply IH.
Qed.

Lemma spans_from_snoc lo chunks b t s e hi :
  spans_from lo chunks b → (b ≤ s)%nat → (s < e)%nat → (e ≤ hi)%nat →
  spans_from lo (chunks ++ [(t, s, e)]) hi.
Proof.
  revert lo. induction chunks as [|[[t' s'] e'] cs IH]; intros lo; simpl.
  - lia.
  - intros (? & ? & ?) ? ? ?. split; [done|]. split; [done|]. by apply IH.
Qed.

Lemma spans_from_bounds lo chunks hi :
  spans_from lo chunks hi →
  (lo ≤ hi)%nat ∧
  Forall (fun c : chunk => (lo ≤ c.1.2)%nat ∧ (c.1.2 < c.2)%nat ∧ (c.2 ≤ hi)%nat)
         chunks.
Proof.
  revert lo. induction chunks as [|[[t s] e] cs IH]; intros lo; simpl.
  - intros ?. split; [done|constructor].
  - intros (? & ? & Hcs). destruct (IH _ Hcs) as [Hle Hall].
    split; [lia|]. constructor; [simpl; lia|].
    eapply Forall_impl; [exact Hall|]. simpl. intros c ?. lia.
Qed.

Lemma spans_from_pairwise lo chunks hi (i j : nat) (c1 c2 : chunk) :
  spans_from lo chunks hi → (i < j)%nat →
  chunks !! i = Some c1 → chunks !! j = Some c2 → (c1.2 ≤ c2.1.2)%nat.
Proof.
  revert lo i j. induction chunks as [|[[t s] e] cs IH]; intros lo i j; simpl.
  - intros _ _ Hc. done.
  - intros (? & ? & Hcs) Hij Hi Hj.
    destruct j as [|j]; [lia|]. simpl in Hj. destruct i as [|i].
    + simpl in Hi. injection Hi as <-. simpl.
      apply spans_from_bounds in Hcs as [_ Hall].
      rewrite Forall_forall in Hall.
      apply list_elem_of_lookup_2 in Hj. apply Hall in Hj. lia.
    + simpl in Hi. apply (IH e i j); [done|lia|done|done].
Qed.

Lemma covers_bounds lo chunks hi k :
  spans_from lo chunks hi → covers chunks k → (lo ≤ k)%nat ∧ (k < hi)%nat.
Proof.
  intros Hsp Hc. apply spans_from_bounds in Hsp as [_ Hall].
  apply Exists_exists in Hc as (c & Hin & ? & ?).
  rewrite Forall_forall in Hall. apply Hall in Hin. lia.
Qed.

Lemma covers_snoc chunks t s e k :
  covers (chunks ++ [(t, s, e)]) k ↔ covers chunks k ∨ (s ≤ k)%nat ∧ (k < e)%nat.
Proof.
  unfold covers. rewrite Exists_app, Exists_cons, Exists_nil. simpl. tauto.
Qed.

Lemma tagged_lt d seq k : tagged d seq k → (k < length seq)%nat.
Proof. intros (tok & Hk & _). by apply lookup_lt_Some in Hk. Qed.

Lemma tagged_snoc_lt d pre tok k :
  (k < length pre)%nat → tagged d (pre ++ [tok]) k ↔ tagged d pre k.
Proof. intros Hk. unfold tagged. by rewrite lookup_app_l. Qed.

Lemma tagged_snoc_last d pre tok :
  tagged d (pre ++ [tok]) (length pre) ↔ tok ≠ d.
Proof.
  unfold tagged. rewrite list_lookup_middle by done. split.
  - by intros (? & [= <-] & ?).
  - intros ?. by exists tok.
Qed.

Lemma scan_inv_step d idx pre st tok st' :
  scan_inv d pre st →
  chunk_step d idx st (length pre) tok = Ok st' →
  scan_inv d (pre ++ [tok]) st'.
Proof.
  destruct st as [chunks open]. unfold scan_inv, chunk_step.
  rewrite length_app. cbn [fst snd length].
  intros (Hsp & Hb & Hlt & Hcov & Htag) Hstep.
  assert (∀ s t, (s ≤ length pre)%nat → spans_from 0 chunks s →
            (∀ k, (k < s)%nat → covers chunks k ↔ tagged d pre k) →
            (∀ k, (s ≤ k)%nat → (k < length pre)%nat → tagged d pre k) →
            (s < length pre)%nat →
            ∀ k, (k < length pre)%nat →
              covers (chunks ++ [(t, s, length pre)]) k
              ↔ tagged d (pre ++ [tok]) k) as Hclose.
  { intros s t Hs Hsp' Hcov' Htag' Hlt' k Hk.
    rewrite covers_snoc, tagged_snoc_lt by done.
    destruct (Nat.lt_ge_cases k s) as [Hks|Hks].
    - rewrite Hcov' by done. split; [|tauto]. intros [?|?]; [done|lia].
    - split; [intros _; by apply Htag'|]. intros _. right. lia. }
  destruct (Z.eqb_spec tok d) as [->|Hne].
  - destruct open as [[ty start]|]; injection Hstep as <-; cbn [fst snd].
    + specialize (Hlt (mk_is_Some _ _ eq_refl)).
      split; [|split; [lia|split; [intros [? [=]]|split]]].
      * eapply spans_from_snoc; [exact Hsp|lia|lia|lia].
      * intros k Hk. destruct (Nat.eq_dec k (length pre)) as [->|Hkn].
        -- rewrite tagged_snoc_last. split; [|done]. intros Hc.
           eapply covers_bounds in Hc;
             [|eapply spans_from_snoc; [exact Hsp|..]; reflexivity || lia].
           lia.
        -- apply Hclose; [lia|done|done|done|done|lia].
      * intros k ? ?. lia.
    + split; [|split; [lia|split; [intros [? [=]]|split]]].
      * eapply spans_from_mono; [exact Hsp|lia].
      * intros k Hk. destruct (Nat.eq_dec k (length pre)) as [->|Hkn].
        -- rewrite tagged_snoc_last. split; [|done]. intros Hc.
           eapply covers_bounds in Hc; [|exact Hsp]. lia.
        -- rewrite tagged_snoc_lt by lia. apply Hcov. lia.
      * intros k ? ?. lia.
  - destruct (get_chunk_type tok idx) as [[cls ty]|e]; [|done].
    cbn [mbind result_bind] in Hstep.
    assert (∀ s k, (s ≤ k)%nat → (k < length pre + 1)%nat →
              (∀ k, (s ≤ k)%nat → (k < length pre)%nat → tagged d pre k) →
              tagged d (pre ++ [tok]) k) as Hext.
    { intros s k ? ? Htag'. destruct (Nat.eq_dec k (length pre)) as [->|Hkn].
      - by apply tagged_snoc_last.
      - apply tagged_snoc_lt; [lia|]. apply Htag'; lia. }
    destruct open as [[ty0 start]|].
    + specialize (Hlt (mk_is_Some _ _ eq_refl)).
      destruct (negb (String.eqb ty ty0) || String.eqb cls "B");
        injection Hstep as <-; cbn [fst snd].
      * split; [|split; [lia|split; [intros _; lia|split]]].
        -- eapply spans_from_snoc; [exact Hsp|lia|lia|lia].
        -- intros k Hk. apply Hclose; [lia|done|done|done|done|lia].
        -- intros k ? ?. apply (Hext (length pre)); [lia|lia|]. intros; lia.
      * split; [done|]. split; [lia|]. split; [intros _; lia|]. split.
        -- intros k Hk. rewrite tagged_snoc_lt by lia. by apply Hcov.
        -- intros k ? ?. by apply (Hext start).
    + injection Hstep as <-; cbn [fst snd].
      split; [done|]. split; [lia|]. split; [intros _; lia|]. split.
      * intros k Hk. rewrite tagged_snoc_lt by lia. by apply Hcov.
      * intros k ? ?. apply (Hext (length pre)); [lia|lia|]. intros; lia.
Qed.

Lemma scan_inv_holds d idx (seq : list Z) st :
  scan d idx ([], None) 0 seq = Ok st → scan_inv d seq st.
Proof.
  revert st. induction seq as [|tok pre IH] using rev_ind; intros st.
  - intros [= <-]. unfold scan_inv. cbn [fst snd length spans_from].
    split; [lia|]. split; [lia|]. split; [intros [? [=]]|].
    split; intros k ?; lia.
  - rewrite scan_snoc. destruct (scan d idx ([], None) 0 pre) as [st0|e];
      cbn [mbind result_bind]; [|done].
    intros Hstep. eapply scan_inv_step; [by apply IH|exact Hstep].
Qed.

Lemma split_go_nonempty sep skip s : Py.split_go sep skip s ≠ [].
Proof.
  revert skip. induction s as [|c s IH]; intros skip; cbn [Py.split_go]; [done|].
  destruct skip; [|apply IH].
  destruct (String.prefix sep (String c s)); [done|].
  by destruct (Py.split_go sep 0 s).
Qed.

Lemma index_first {A} (l : list A) x : Py.index (x :: l) 0 = Ok x.
Proof. done. Qed.

Lemma index_last {A} (l : list A) x : Py.index (l ++ [x]) (-1) = Ok x.
Proof.
  unfold Py.index, Py.len. rewrite length_app. cbn [length Z.ltb Z.compare].
  destruct (Z.ltb_spec (Z.of_nat (length l + 1) + -1) 0) as [?|_]; [lia|].
  replace (Z.to_nat (Z.of_nat (length l + 1) + -1)) with (length l) by lia.
  by rewrite list_lookup_middle.
Qed.

Lemma get_chunk_type_total idx tok name :
  idx !! tok = Some name → ∃ cls ty, get_chunk_type tok idx = Ok (cls, ty).
Proof.
  intros Hname. unfold get_chunk_type, Py.split. rewrite Hname.
  cbn [String.eqb mbind result_bind].
  pose proof (split_go_nonempty "-" 0 name) as Hne.
  destruct (Py.split_go "-" 0 name) as [|w ws]; [done|].
  rewrite index_first. cbn [mbind result_bind].
  destruct (exists_last (l := w :: ws)) as (ws' & z & ->); [done|].
  rewrite index_last. cbn [mbind result_bind]. by eexists _, _.
Qed.

Lemma scan_total d idx st i (seq : list Z) :
  Forall (fun tok => tok ≠ d → is_Some (idx !! tok)) seq →
  ∃ st', scan d idx st i seq = Ok st'.
Proof.
  intros Hall. revert st i. induction Hall as [|tok seq Htok _ IH]; intros st i.
  - by eexists.
  - cbn [scan].
    assert (∃ st', chunk_step d idx st i tok = Ok st') as [st' ->].
    { destruct st as [chunks open]. unfold chunk_step.
      destruct (Z.eqb_spec tok d) as [->|Hne].
      - destruct open as [[ty start]|]; by eexists.
      - destruct (Htok Hne) as [name Hname].
        destruct (get_chunk_type_total _ _ _ Hname) as (cls & ty & ->).
        cbn [mbind result_bind]. destruct open as [[ty0 start]|]; [|by eexists].
        destruct (negb _ || _); by eexists. }
    cbn [mbind result_bind]. apply IH.
Qed.

(** C5. On a sequence whose non-default ids are all in the tag mapping,
    [get_chunks] returns a list of chunks with [start < end <= len(seq)],
    in which a chunk that comes earlier starts earlier and ends no later
    than the next one starts, and whose spans cover exactly the indices
    that carry a non-default tag. *)
Theorem get_chunks_ordered_cover (tags : list (string * Z)) (default : Z)
    (seq : list Z) :
  Py.getitem tags NONE = Ok default →
  Forall (fun tok => tok ≠ default → is_Some (invert tags !! tok)) seq →
  ∃ chunks,
    get_chunks seq tags = Ok chunks ∧
    Forall (fun c : chunk => (c.1.2 < c.2)%nat ∧ (c.2 ≤ length seq)%nat) chunks ∧
    (∀ (i j : nat) (c1 c2 : chunk),
       (i < j)%nat → chunks !! i = Some c1 → chunks !! j = Some c2 →
       (c1.1.2 < c2.1.2)%nat ∧ (c1.2 ≤ c2.1.2)%nat) ∧
    (∀ k, covers chunks k ↔ tagged default seq k).
Proof.
  intros Hd Hall. unfold get_chunks. rewrite Hd. cbn [mbind result_bind].
  destruct (scan_total default (invert tags) ([], None) 0 seq Hall)
    as [[chunks open] Hscan].
  rewrite Hscan. cbn [mbind result_bind].
  apply scan_inv_holds in Hscan as (Hsp & Hb & Hlt & Hcov & Htag).
  cbn [fst snd] in *. eexists. split; [reflexivity|].
  assert (spans_from 0 (close_last (chunks, open) (length seq)) (length seq)
          ∧ ∀ k, covers (close_last (chunks, open) (length seq)) k
                 ↔ tagged default seq k) as [Hsp' Hcov'].
  { destruct open as [[ty start]|]; cbn [close_last].
    - specialize (Hlt (mk_is_Some _ _ eq_refl)). split.
      + eapply spans_from_snoc; [exact Hsp|lia|lia|lia].
      + intros k. rewrite covers_snoc.
        destruct (Nat.lt_ge_cases k start) as [Hk|Hk].
        * rewrite Hcov by done. split; [|tauto]. intros [?|?]; [done|lia].
        * split.
          -- intros [Hc|[_ ?]]; [|by apply Htag].
             eapply covers_bounds in Hc; [|exact Hsp]. lia.
          -- intros Ht%tagged_lt. right. lia.
    - split; [done|]. intros k.
      destruct (Nat.lt_ge_cases k (length seq)) as [Hk|Hk]; [by apply Hcov|].
      split.
      + intros Hc. eapply covers_bounds in Hc; [|exact Hsp]. lia.
      + intros Ht%tagged_lt. lia. }
  split; [|split; [|done]].
  - apply spans_from_bounds in Hsp' as [_ Hall'].
    eapply Forall_impl; [exact Hall'|]. simpl. intros c ?. lia.
  - intros i j c1 c2 Hij Hi Hj.
    pose proof (spans_from_pairwise _ _ _ _ _ _ _ Hsp' Hij Hi Hj) as Hle.
    split; [|done].
    apply spans_from_bounds in Hsp' as [_ Hall'].
    rewrite Forall_forall in Hall'.
    apply list_elem_of_lookup_2 in Hi. apply Hall' in Hi. lia.
Qed.

Lemma get_chunks_ordered_cover_witness :
  ∃ chunks,
    get_chunks [4; 5; 0; 3]
               [("B-PER", 4); ("I-PER", 5); ("B-LOC", 3); ("O", 0)]
      = Ok chunks ∧
    Forall (fun c : chunk => (c.1.2 < c.2)%nat ∧ (c.2 ≤ 4)%nat) chunks ∧
    (∀ (i j : nat) (c1 c2 : chunk),
       (i < j)%nat → chunks !! i = Some c1 → chunks !! j = Some c2 →
       (c1.1.2 < c2.1.2)%nat ∧ (c1.2 ≤ c2.1.2)%nat) ∧
    (∀ k, covers chunks k ↔ tagged 0 [4; 5; 0; 3] k).
Proof.
  apply (get_chunks_ordered_cover
           [("B-PER", 4); ("I-PER", 5); ("B-LOC", 3); ("O", 0)] 0 [4; 5; 0; 3]).
  - reflexivity.
  - repeat constructor; intros _; vm_compute; eauto.
Defined.

(** *** Chunk extraction: decoding an encoded chunk list *)

Lemma split_go_no_dash t : no_dash t = true → Py.split_go "-" 0 t = [t].
Proof.
  induction t as [|c t IH]; [done|]. cbn [no_dash Py.split_go String.prefix].
  intros [Hc Ht]%andb_true_iff. apply negb_true_iff, Ascii.eqb_neq in Hc.
  destruct (ascii_dec "-" c) as [<-|_]; [done|]. by rewrite IH.
Qed.

Lemma get_chunk_type_prefixed idx tok (p : ascii) t :
  p ≠ "-"%char → no_dash t = true →
  idx !! tok = Some (String p (String "-" t)) →
  get_chunk_type tok idx = Ok (String p "", t).
Proof.
  intros Hp Ht Hname. unfold get_chunk_type, Py.split. rewrite Hname.
  cbn [String.eqb mbind result_bind Py.split_go String.prefix].
  destruct (ascii_dec "-" p) as [<-|_]; [done|].
  destruct (ascii_dec "-" "-") as [_|?]; [|done].
  cbn [String.length Nat.sub]. rewrite split_go_no_dash by done.
  by assert (String.prefix "" t = true) as -> by (by destruct t).
Qed.

Lemma invert_snoc tags tag idx :
  invert (tags ++ [(tag, idx)]) = <[idx := tag]> (invert tags).
Proof. unfold invert. by rewrite foldl_app. Qed.

Lemma invert_lookup tags tag idx :
  NoDup tags.*2 → (tag, idx) ∈ tags → invert tags !! idx = Some tag.
Proof.
  induction tags as [|[k v] tags IH] using rev_ind; intros Hnd Hin.
  - by apply elem_of_nil in Hin.
  - rewrite invert_snoc. rewrite fmap_app in Hnd.
    apply NoDup_app in Hnd as (Hnd & Hfresh & _).
    apply elem_of_app in Hin as [Hin|Hin].
    + rewrite lookup_insert_ne; [by apply IH|]. intros ->.
      apply (Hfresh idx); [|by left].
      apply list_elem_of_fmap. by exists (tag, idx).
    + apply list_elem_of_singleton in Hin as [= -> ->].
      by rewrite lookup_insert_eq.
Qed.

Lemma getitem_elem tags key v : Py.getitem tags key = Ok v → (key, v) ∈ tags.
Proof.
  induction tags as [|[k w] tags IH]; cbn [Py.getitem]; [done|].
  destruct (String.eqb_spec k key) as [->|_].
  - intros [= ->]. by left.
  - intros ?. right. by apply IH.
Qed.

Lemma scan_default_run d idx chunks open i k :
  scan d idx (chunks, open) i (replicate k d)
  = Ok (match k with
        | O => (chunks, open)
        | S _ => (chunks ++ pending open i, None)
        end).
Proof.
  destruct k as [|k]; [done|]. cbn [replicate scan].
  destruct open as [[ty start]|]; cbn [pending].
  - rewrite step_default_open. cbn [mbind result_bind].
    apply scan_all_default, Forall_replicate. done.
  - rewrite step_default_closed, app_nil_r. cbn [mbind result_bind].
    apply scan_all_default, Forall_replicate. done.
Qed.

Lemma scan_inside_run d idx chunks ty start i k tok cls :
  tok ≠ d → get_chunk_type tok idx = Ok (cls, ty) → cls ≠ "B" →
  scan d idx (chunks, Some (ty, start)) i (replicate k tok)
  = Ok (chunks, Some (ty, start)).
Proof.
  intros Hne Hty Hcls. revert i. induction k as [|k IH]; intros i; [done|].
  cbn [replicate scan]. rewrite (step_continue _ _ _ _ _ _ _ cls) by done.
  cbn [mbind result_bind]. apply IH.
Qed.

Section RoundTrip.
Variables (tags : list (string * Z)) (default : Z) (n : nat).
Hypothesis Hdefault : Py.getitem tags NONE = Ok default.
Hypothesis Hdistinct : NoDup tags.*2.

Lemma known_lookup name : known tags name → invert tags !! id_of tags name = Some name.
Proof. intros Hk. by apply invert_lookup, getitem_elem. Qed.

Lemma known_not_default name :
  known tags name → name ≠ NONE → id_of tags name ≠ default.
Proof.
  intros Hk Hne Heq. apply known_lookup in Hk. rewrite Heq in Hk.
  pose proof (invert_lookup _ _ _ Hdistinct (getitem_elem _ _ _ Hdefault)).
  congruence.
Qed.

Lemma scan_encode chunks : ∀ i acc open,
  spans_from i chunks n →
  Forall (fun c : chunk => no_dash c.1.1 = true) chunks →
  Forall (known tags) (encode i chunks n) →
  ∃ st, scan default (invert tags) (acc, open) i (id_of tags <$> encode i chunks n)
          = Ok st ∧
        close_last st n = acc ++ pending open i ++ chunks.
Proof.
  assert (id_of tags NONE = default) as HO by (unfold id_of; by rewrite Hdefault).
  induction chunks as [|[[t s] e] cs IH]; intros i acc open Hsp Hty Hkn.
  - cbn [encode spans_from] in *. rewrite fmap_replicate, HO, scan_default_run.
    eexists. split; [reflexivity|]. rewrite app_nil_r.
    destruct (n - i)%nat as [|k] eqn:Hk.
    + destruct open as [[ty start]|]; cbn [close_last pending]; [|by rewrite app_nil_r].
      by replace i with n by lia.
    + cbn [close_last]. done.
  - cbn [encode spans_from] in *. destruct Hsp as (His & Hse & Hsp).
    apply Forall_cons in Hty as [Ht Hty]. cbn [fst] in Ht.
    apply Forall_app in Hkn as [_ Hkn].
    apply Forall_cons in Hkn as [HkB Hkn].
    apply Forall_app in Hkn as [HkI Hkn].
    assert (get_chunk_type (id_of tags ("B-" ++ t)%string) (invert tags) = Ok ("B", t))
      as HdecB by (by apply get_chunk_type_prefixed; [| |apply known_lookup]).
    assert (id_of tags ("B-" ++ t)%string ≠ default)
      as HneB by (by apply known_not_default).
    destruct (IH e (acc ++ pending open i) (Some (t, s)) Hsp Hty Hkn)
      as (st & Hst & Hclose).
    exists st. split.
    + rewrite !fmap_app, !fmap_replicate, HO. cbn [fmap list_fmap].
      rewrite scan_app, scan_default_run, length_replicate.
      cbn [mbind result_bind].
      replace (i + (s - i))%nat with s by lia.
      rewrite (scan_app _ _ _ _ [_]). cbn [scan length].
      match goal with
      | |- context [chunk_step _ _ ?x _ _] => set (st0 := x)
      end.
      assert (chunk_step default (invert tags) st0 s
                         (id_of tags ("B-" ++ t)%string)
              = Ok (acc ++ pending open i, Some (t, s))) as ->.
      { subst st0. destruct (s - i)%nat as [|k] eqn:Hk.
        - replace i with s by lia. destruct open as [[ty0 s0]|]; cbn [pending].
          + by rewrite (step_switch _ _ _ _ _ _ _ "B" t) by auto.
          + by rewrite app_nil_r, (step_begin _ _ _ _ _ "B" t).
        - by rewrite (step_begin _ _ _ _ _ "B" t). }
      cbn [mbind result_bind]. rewrite scan_app, length_replicate.
      destruct (e - s - 1)%nat as [|k] eqn:Hk.
      * cbn [replicate scan mbind result_bind].
        by replace (s + 1 + 0)%nat with e by lia.
      * cbn [replicate] in HkI. apply Forall_cons in HkI as [HkI _].
        rewrite (scan_inside_run _ _ _ _ _ _ _ _ "I"); [| |by apply
          get_chunk_type_prefixed; [| |apply known_lookup]|done];
          [|by apply known_not_default].
        cbn [mbind result_bind].
        by replace (s + 1 + S k)%nat with e by lia.
    + rewrite Hclose. cbn [pending]. by rewrite <- !app_assoc.
Qed.

End RoundTrip.

Lemma encoded_ids tags (names : list string) (ids : list Z) :
  Forall2 (fun name id => Py.getitem tags name = Ok id) names ids →
  ids = id_of tags <$> names ∧ Forall (known tags) names.
Proof.
  induction 1 as [|name id names ids Hid _ [-> IH]]; [by split|].
  assert (id_of tags name = id) as Hname by (unfold id_of; by rewrite Hid).
  split; [by rewrite fmap_cons, Hname|].
  constructor; [|done]. unfold known. by rewrite Hname.
Qed.

Lemma encode_length i chunks n :
  spans_from i chunks n → length (encode i chunks n) = (n - i)%nat.
Proof.
  revert i. induction chunks as [|[[t s] e] cs IH]; intros i;
    cbn [encode spans_from].
  - by rewrite length_replicate.
  - intros (? & ? & Hcs). rewrite !length_app, !length_replicate, (IH _ Hcs).
    apply spans_from_bounds in Hcs as [? _]. cbn [length]. lia.
Qed.

(** C3, as amended.  Take chunks whose types hold no [-], with
    [start < end], lying in order without overlap within [0, n), and a tag
    mapping that holds [O] and gives distinct ids to distinct names.  If
    [ids] are the ids of the tag names that encode the chunks over [n]
    positions ([B-type] at a chunk start, [I-type] inside, [O] elsewhere),
    then [get_chunks ids tags] returns exactly the chunks. *)
Theorem get_chunks_round_trip (tags : list (string * Z)) (default : Z)
    (chunks : list chunk) (n : nat) (ids : list Z) :
  Py.getitem tags NONE = Ok default →
  NoDup tags.*2 →
  spans_from 0 chunks n →
  Forall (fun c : chunk => no_dash c.1.1 = true) chunks →
  Forall2 (fun name id => Py.getitem tags name = Ok id) (encode 0 chunks n) ids →
  get_chunks ids tags = Ok chunks.
Proof.
  intros Hd Hnd Hsp Hty [-> Hkn]%encoded_ids.
  destruct (scan_encode tags default n Hd Hnd chunks 0 [] None Hsp Hty Hkn)
    as (st & Hst & Hclose).
  unfold get_chunks. rewrite Hd. cbn [mbind result_bind].
  rewrite Hst. cbn [mbind result_bind].
  rewrite length_fmap.
  rewrite encode_length by done. by rewrite Nat.sub_0_r, Hclose.
Qed.

Lemma get_chunks_round_trip_witness :
  get_chunks [1; 2; 0; 3; 1]
             [("O", 0); ("B-PER", 1); ("I-PER", 2); ("B-LOC", 3); ("I-LOC", 4)]
  = Ok [("PER", 0%nat, 2%nat); ("LOC", 3%nat, 4%nat); ("PER", 4%nat, 5%nat)].
Proof.
  apply (get_chunks_round_trip _ 0 _ 5).
  - reflexivity.
  - apply (bool_decide_unpack _). by vm_compute.
  - cbn. lia.
  - repeat constructor.
  - repeat constructor.
Defined.

(** C3, as stated, fails for a chunk type that holds a [-]: the tag
    [B-A-B] encodes a chunk of type [A-B], and [get_chunks] decodes its
    type as [B], the text after the last [-]. *)
Lemma get_chunks_round_trip_counterexample :
  Py.getitem [("O", 0); ("B-A-B", 1); ("I-A-B", 2)] NONE = Ok 0 ∧
  NoDup [("O", 0); ("B-A-B", 1); ("I-A-B", 2)].*2 ∧
  spans_from 0 [("A-B", 0%nat, 1%nat)] 1 ∧
  Forall2 (fun name id =>
             Py.getitem [("O", 0); ("B-A-B", 1); ("I-A-B", 2)] name = Ok id)
          (encode 0 [("A-B", 0%nat, 1%nat)] 1) [1] ∧
  get_chunks [1] [("O", 0); ("B-A-B", 1); ("I-A-B", 2)]
    = Ok [("B", 0%nat, 1%nat)] ∧
  get_chunks [1] [("O", 0); ("B-A-B", 1); ("I-A-B", 2)]
    ≠ Ok [("A-B", 0%nat, 1%nat)].
Proof.
  split; [reflexivity|]. split; [apply (bool_decide_unpack _); by vm_compute|].
  split; [cbn; lia|]. split; [repeat constructor|].
  assert (get_chunks [1] [("O", 0); ("B-A-B", 1); ("I-A-B", 2)]
          = Ok [("B", 0%nat, 1%nat)]) as -> by (vm_compute; reflexivity).
  split; [done|]. intros [=].
Qed.


(** *** Numeric classification *)

Lemma append_cons x (a b : string) :
  (String x a ++ b)%string = String x (a ++ b)%string.
Proof. reflexivity. Qed.

Lemma append_assoc (a b c : string) :
  ((a ++ b) ++ c)%string = (a ++ b ++ c)%string.
Proof. induction a as [|x a IH]; [done|]. by rewrite !append_cons, IH. Qed.

Lemma append_nil_r (a : string) : (a ++ "")%string = a.
Proof. induction a as [|x a IH]; [done|]. by rewrite append_cons, IH. Qed.

Lemma digits_split s :
  ∃ d, all_digits d = true ∧ s = (d ++ Re.digits s)%string.
Proof.
  induction s as [|c s (d & Hd & Hs)]; [by exists ""|].
  cbn [Re.digits]. destruct (Re.digit c) eqn:Hc.
  - exists (String c d). rewrite append_cons. cbn [all_digits].
    rewrite Hc, Hd. split; [done|]. congruence.
  - by exists "".
Qed.

Lemma digits1_split s rest :
  Re.digits1 s = Some rest →
  ∃ d, d ≠ "" ∧ all_digits d = true ∧ s = (d ++ rest)%string.
Proof.
  destruct s as [|c s]; [done|]. cbn [Re.digits1].
  destruct (Re.digit c) eqn:Hc; [|done]. intros [= <-].
  destruct (digits_split s) as (d & Hd & Hs).
  exists (String c d). rewrite append_cons. cbn [all_digits].
  rewrite Hc, Hd. split; [done|]. split; [done|]. congruence.
Qed.

Lemma digits_append d rest :
  all_digits d = true → Re.digits (d ++ rest)%string = Re.digits rest.
Proof.
  induction d as [|c d IH]; [done|]. rewrite append_cons.
  cbn [all_digits Re.digits]. intros [-> Hd]%andb_true_iff. by apply IH.
Qed.

Lemma digits1_append d rest :
  d ≠ "" → all_digits d = true → Re.digits rest = rest →
  Re.digits1 (d ++ rest)%string = Some rest.
Proof.
  destruct d as [|c d]; [done|]. rewrite append_cons.
  cbn [all_digits Re.digits1]. intros _ [-> Hd]%andb_true_iff Hrest.
  by rewrite digits_append, Hrest.
Qed.

Lemma at_end_iff rest : Re.at_end rest = true ↔ rest = "" ∨ rest = Re.newline.
Proof.
  unfold Re.at_end. rewrite orb_true_iff, !String.eqb_eq. done.
Qed.

(** The pattern of [is_digit] accepts the strings the specification
    describes and the same strings followed by one newline. *)
Lemma comma_number_iff s :
  Re.comma_number s = true ↔
  signed_comma_number s ∨
  ∃ s', s = (s' ++ Re.newline)%string ∧ signed_comma_number s'.
Proof.
  split.
  - unfold Re.comma_number.
    set (s1 := match s with
               | String c s' => if Re.sign c then s' else s
               | EmptyString => s
               end).
    assert (∃ sg, (sg = "" ∨ sg = "-" ∨ sg = "+") ∧ s = (sg ++ s1)%string)
      as (sg & Hsg & Hs).
    { subst s1. destruct s as [|c s]; [exists ""; auto|].
      destruct (Re.sign c) eqn:Hc; [|exists ""; auto].
      unfold Re.sign in Hc. apply orb_true_iff in Hc as [Hc|Hc];
        apply Ascii.eqb_eq in Hc; subst c; [exists "-"|exists "+"]; auto. }
    destruct (Re.digits1 s1) as [[|c s2]|] eqn:H1; [done| |done].
    destruct (ascii_dec c ",") as [->|Hc]; [|by destruct c as [[] [] [] [] [] [] [] []]].
    destruct (Re.digits1 s2) as [rest|] eqn:H2; [|done].
    intros [Hr|Hr]%at_end_iff.
    + left. apply digits1_split in H1 as (d1 & ? & ? & Hs1).
      apply digits1_split in H2 as (d2 & ? & ? & Hs2).
      exists sg, d1, d2. repeat (split; [done|]).
      rewrite Hs, Hs1, Hs2, Hr. by rewrite append_nil_r.
    + right. apply digits1_split in H1 as (d1 & ? & ? & Hs1).
      apply digits1_split in H2 as (d2 & ? & ? & Hs2).
      exists (sg ++ d1 ++ "," ++ d2)%string. split.
      * rewrite Hs, Hs1, Hs2, Hr. by rewrite !append_assoc.
      * exists sg, d1, d2. by repeat (split; [done|]).
  - assert (∀ sg d1 d2 rest,
              (sg = "" ∨ sg = "-" ∨ sg = "+") → d1 ≠ "" → all_digits d1 = true →
              d2 ≠ "" → all_digits d2 = true → rest = "" ∨ rest = Re.newline →
              Re.comma_number (sg ++ d1 ++ "," ++ d2 ++ rest)%string = true)
      as Hacc.
    { intros sg d1 d2 rest Hsg Hn1 Hd1 Hn2 Hd2 Hrest. unfold Re.comma_number.
      assert (match (sg ++ d1 ++ "," ++ d2 ++ rest)%string with
              | String c s' =>
                  if Re.sign c then s' else (sg ++ d1 ++ "," ++ d2 ++ rest)%string
              | EmptyString => (sg ++ d1 ++ "," ++ d2 ++ rest)%string
              end = (d1 ++ "," ++ d2 ++ rest)%string) as ->.
      { destruct Hsg as [->|[->| ->]]; [|done|done].
        destruct d1 as [|c d1]; [done|]. cbn [all_digits] in Hd1.
        change ("" ++ ?x)%string with x. rewrite append_cons.
        apply andb_true_iff in Hd1 as [Hc _].
        assert (Re.sign c = false) as ->; [|done].
        unfold Re.sign. destruct (Ascii.eqb_spec c "-") as [->|_]; [done|].
        by destruct (Ascii.eqb_spec c "+") as [->|_]. }
      rewrite (digits1_append d1 ("," ++ d2 ++ rest)%string);
        [|done|done|reflexivity].
      change ("," ++ ?x)%string with (String "," x). cbv beta iota.
      rewrite digits1_append; [by apply at_end_iff|done|done|].
      by destruct Hrest as [-> | ->]. }
    intros [(sg & d1 & d2 & ? & ? & ? & ? & ? & ->)
           |(s' & -> & sg & d1 & d2 & ? & ? & ? & ? & ? & ->)].
    + rewrite <- (append_nil_r d2). apply Hacc; auto.
    + rewrite !append_assoc. apply Hacc; auto.
Qed.

Lemma is_digit_iff `{PyText} (s : string) :
  is_digit s = true ↔
  float_parses s = true ∨ numeric_defined s = true ∨ Re.comma_number s = true.
Proof.
  unfold is_digit.
  destruct (float_parses s), (numeric_defined s), (Re.comma_number s);
    intuition congruence.
Qed.

(** The pattern of [is_digit] accepts the string [1,2] followed by a
    newline, whatever the library functions answer, although the string
    is not an optional sign, digits, a comma and digits: the [$] of the
    pattern also matches before a final newline. *)
Lemma is_digit_trailing_newline `{PyText} :
  is_digit ("1,2" ++ Re.newline)%string = true ∧
  ¬ signed_comma_number ("1,2" ++ Re.newline)%string.
Proof.
  split.
  - apply is_digit_iff. right. right. reflexivity.
  - intros Hs.
    assert (Re.comma_number (("1,2" ++ Re.newline) ++ Re.newline)%string = true)
      as Hacc by (apply comma_number_iff; right; eauto).
    discriminate Hacc.
Qed.




Example is_digit_comma_number `{PyText} : is_digit "12,345" = true.
Proof. apply is_digit_iff. right. right. reflexivity. Qed.

Example is_digit_letters `{PyText} :
  float_parses "abc123" = false → numeric_defined "abc123" = false →
  is_digit "abc123" = false.
Proof. intros Hf Hn. unfold is_digit. by rewrite Hf, Hn. Qed.

(** *** Unknown tokens *)

Lemma fit_word_id `{PyText} (self : Processor) (word : string) (id : Z) :
  word_id self (preprocess self word) = Ok id →
  fit self word = Ok (encoded self word id).
Proof.
  intros Hid. unfold fit, encoded. rewrite Hid. cbn [mbind result_bind].
  by destruct (with_chars self).
Qed.

(** C7. Let [processed] be the word after the optional lowercasing and
    the replacement of a numeric word by [<NUM>].  When [processed] is not
    in the word vocabulary, [fit] raises the exception [Unknown key is not
    allowed.] if the fallback is disabled, and returns the id of [<UNK>]
    (alone or with the character ids) if the fallback is enabled and the
    vocabulary holds [<UNK>].  When [processed] is in the vocabulary,
    [fit] returns its id, whatever the fallback. *)
Theorem fit_unknown_token `{PyText} (self : Processor) (word : string) :
  (word_vocab self !! preprocess self word = None →
   allow_unk self = false →
   fit self word = Raise (Exception "Unknown key is not allowed.")) ∧
  (∀ unk, word_vocab self !! preprocess self word = None →
          allow_unk self = true →
          word_vocab self !! UNK = Some unk →
          fit self word = Ok (encoded self word unk)) ∧
  (∀ id, word_vocab self !! preprocess self word = Some id →
         fit self word = Ok (encoded self word id)).
Proof.
  split; [|split].
  - intros Hnone Hunk. unfold fit, word_id. by rewrite Hnone, Hunk.
  - intros unk Hnone Hallow Hunk. apply fit_word_id.
    unfold word_id. by rewrite Hnone, Hallow, Hunk.
  - intros id Hid. apply fit_word_id. unfold word_id. by rewrite Hid.
Qed.

Lemma fit_unknown_token_witness :
  word_vocab (sample_processor true)
    !! preprocess (sample_processor true) "Zebra" = None ∧
  fit (sample_processor true) "Zebra"
    = Ok (encoded (sample_processor true) "Zebra" 1).
Proof.
  assert (word_vocab (sample_processor true)
            !! preprocess (sample_processor true) "Zebra" = None) as Hnone
    by (vm_compute; reflexivity).
  split; [exact Hnone|].
  destruct (fit_unknown_token (sample_processor true) "Zebra") as (_ & Hunk & _).
  apply (Hunk 1); [exact Hnone|reflexivity|vm_compute; reflexivity].
Defined.

(** *** Batches *)

Lemma mapM_iter_tuples (x : list token) :
  Forall (fun t => is_tuple t = true) x → ∃ cols, mapM iter_token x = Ok cols.
Proof.
  induction 1 as [|t x Ht _ [cols IH]]; [by eexists|].
  destruct t as [| |char_ids word]; try done.
  cbn [mapM iter_token]. cbn. rewrite IH. by eexists.
Qed.

Lemma reshape_uniform (x : list token) : uniform x → ∃ e, reshape x = Ok e.
Proof.
  intros (t & x' & -> & Hall). unfold reshape. rewrite index_first.
  cbn [mbind result_bind]. destruct (is_tuple t) eqn:Ht; [|by eexists].
  unfold zip_star.
  destruct (mapM_iter_tuples (t :: x')) as [cols ->]; [|by eexists].
  constructor; [done|]. eapply Forall_impl; [exact Hall|].
  intros t'. by destruct t, t'.
Qed.

Lemma full_then_last_cons {X} n (b : list X) bs :
  1 ≤ n → Py.len b = n → full_then_last n bs → full_then_last n (b :: bs).
Proof. intros ? ? ?. cbn [full_then_last]. destruct bs; [lia|done]. Qed.

Lemma full_then_last_sizes {X} n (bs : list (list X)) :
  1 ≤ n → full_then_last n bs → bs ≠ [] →
  n * (Py.len bs - 1) < Py.len (concat bs) ∧
  Py.len (concat bs) ≤ n * Py.len bs ∧
  (∀ (i : nat) b, bs !! i = Some b → (S i < length bs)%nat → Py.len b = n) ∧
  (∀ b, last bs = Some b →
        Py.len b = Py.len (concat bs) - n * (Py.len bs - 1)).
Proof.
  intros Hn. unfold Py.len.
  induction bs as [|b bs IH]; [done|]. intros Hfull _.
  cbn [full_then_last] in Hfull. destruct bs as [|b' bs].
  - cbn [concat length last]. rewrite app_nil_r. unfold Py.len in Hfull.
    split; [lia|]. split; [lia|]. split.
    + intros i c _ Hi. cbn [length] in Hi. lia.
    + intros c [= <-]. lia.
  - destruct Hfull as [Hb Hfull]. unfold Py.len in Hb.
    destruct (IH Hfull) as (Hlo & Hhi & Hinit & Hlast); [done|].
    change (concat (b :: b' :: bs)) with (b ++ concat (b' :: bs)).
    rewrite length_app. cbn [length] in *.
    split; [lia|]. split; [lia|]. split.
    + intros [|i] c Hc Hi; [by injection Hc as <-|].
      apply (Hinit i c Hc). lia.
    + intros c Hc. change (last (b :: b' :: bs)) with (last (b' :: bs)) in Hc.
      rewrite (Hlast c Hc). lia.
Qed.

Lemma batch_loop_spec {Y} (B : Z) (dataset : list (list token * Y)) :
  1 ≤ B → Forall (fun p => uniform p.1) dataset →
  ∀ batch_x batch_y,
    length batch_x = length batch_y → Py.len batch_x ≤ B →
    ∃ batches entries,
      batch_loop B batch_x batch_y dataset = (batches, None) ∧
      mapM reshape (fst <$> dataset) = Ok entries ∧
      concat (fst <$> batches) = batch_x ++ entries ∧
      concat (snd <$> batches) = batch_y ++ (snd <$> dataset) ∧
      full_then_last B (fst <$> batches) ∧
      Forall (fun b : batch => length b.1 = length b.2) batches.
Proof.
  intros HB. induction 1 as [|[x y] dataset Hx _ IH]; intros bx by_ Hlen Hle.
  - cbn [batch_loop fmap list_fmap mapM]. unfold Py.len in *.
    destruct bx as [|e bx].
    + destruct by_; [|done]. exists [], []. repeat split; constructor.
    + exists [(e :: bx, by_)], [].
      assert ((Z.of_nat (length (e :: bx)) =? 0) = false) as ->
        by (apply Z.eqb_neq; cbn [length]; lia).
      cbn [negb fmap list_fmap concat fst snd full_then_last].
      rewrite !app_nil_r. unfold Py.len. cbn [length].
      repeat split; try done; try lia. by constructor.
  - cbn [batch_loop fst] in *. destruct (reshape_uniform x Hx) as [e He].
    destruct (Z.eqb_spec (Py.len bx) B) as [Hfull|Hpart].
    + rewrite He. change ([] ++ [e]) with [e]. change ([] ++ [y]) with [y].
      destruct (IH [e] [y]) as
        (batches & entries & -> & Hent & Hcx & Hcy & Hftl & Hall);
        [done|unfold Py.len; cbn [length]; lia|].
      exists ((bx, by_) :: batches), (e :: entries).
      split; [done|]. rewrite !fmap_cons. cbn [fst snd concat mapM].
      rewrite He. cbn [mbind result_bind]. rewrite Hent.
      cbn [mbind result_bind]. split; [done|].
      rewrite Hcx, Hcy. repeat split; try done.
      * by apply full_then_last_cons.
      * by constructor.
    + rewrite He. destruct (IH (bx ++ [e]) (by_ ++ [y])) as
        (batches & entries & -> & Hent & Hcx & Hcy & Hftl & Hall).
      { rewrite !length_app. cbn [length]. lia. }
      { unfold Py.len in *. rewrite length_app. cbn [length]. lia. }
      exists batches, (e :: entries).
      split; [done|]. rewrite !fmap_cons. cbn [fst snd concat mapM].
      rewrite He. cbn [mbind result_bind]. rewrite Hent.
      cbn [mbind result_bind]. split; [done|].
      rewrite Hcx, Hcy, <- !app_assoc. done.
Qed.

Lemma mapM_result_length {X Z'} (f : X → result Z') (l : list X) k :
  mapM f l = Ok k → length k = length l.
Proof.
  revert k. induction l as [|x l IH]; intros k; cbn [mapM].
  - by intros [= <-].
  - destruct (f x) as [y|e]; cbn [mbind result_bind]; [|done].
    destruct (mapM f l) as [k'|e]; cbn [mbind result_bind]; [|done].
    intros [= <-]. cbn [length]. by rewrite (IH k').
Qed.

(** C8, as amended.  For a dataset of [N >= 1] pairs whose sentences are
    not empty and hold tokens of one shape, and a batch size [B >= 1],
    [batch_iter] ends without an exception after yielding
    [ceil(N / B)] batches, which hold the (reshaped) sentences and the tag
    sequences in input order; every batch but the last has [B] elements;
    the last has [B] elements when [B] divides [N] and
    [N - B * floor(N / B)] otherwise. *)
Theorem batch_iter_sizes {Y} (dataset : list (list token * Y)) (B : Z) :
  1 ≤ B → dataset ≠ [] → Forall (fun p => uniform p.1) dataset →
  ∃ (batches : list (@batch Y)) entries,
    batch_iter dataset B = (batches, None) ∧
    mapM reshape (fst <$> dataset) = Ok entries ∧
    concat (fst <$> batches) = entries ∧
    concat (snd <$> batches) = snd <$> dataset ∧
    Py.len batches = (Py.len dataset + B - 1) / B ∧
    (∀ (i : nat) b, batches !! i = Some b → (S i < length batches)%nat →
                    Py.len b.1 = B ∧ Py.len b.2 = B) ∧
    (∀ b, last batches = Some b →
          Py.len b.1 = (if Py.len dataset mod B =? 0 then B
                        else Py.len dataset - B * (Py.len dataset / B)) ∧
          Py.len b.2 = Py.len b.1).
Proof.
  intros HB Hne Hall.
  destruct (batch_loop_spec B dataset HB Hall [] [])
    as (batches & entries & Hrun & Hent & Hcx & Hcy & Hftl & Hlen);
    [done|unfold Py.len; cbn [length]; lia|].
  exists batches, entries. cbn [app] in Hcx, Hcy.
  split; [done|]. split; [done|]. split; [done|]. split; [done|].
  assert (Py.len (concat (fst <$> batches)) = Py.len dataset) as HN.
  { rewrite Hcx. unfold Py.len.
    by rewrite (mapM_result_length _ _ _ Hent), length_fmap. }
  assert (fst <$> batches ≠ []) as Hbs.
  { intros Hnil. rewrite Hnil in HN. unfold Py.len in HN.
    destruct dataset; [done|]. cbn [concat length] in HN. lia. }
  destruct (full_then_last_sizes B _ HB Hftl Hbs)
    as (Hlo & Hhi & Hinit & Hlast).
  rewrite HN in Hlo, Hhi, Hlast. unfold Py.len in Hlo, Hhi, Hlast.
  rewrite length_fmap in Hlo, Hhi, Hlast.
  unfold Py.len.
  unfold batch in *.
  remember (Z.of_nat (length dataset)) as N eqn:HeqN in *.
  remember (Z.of_nat (length batches)) as k eqn:Heqk in *.
  rewrite Forall_forall in Hlen.
  split; [|split].
  - apply (Z.div_unique_pos _ _ _ (N + B - 1 - B * k)); lia.
  - intros i b Hb Hi.
    assert (Z.of_nat (length b.1) = B) as Hb1.
    { apply (Hinit i); [by rewrite list_lookup_fmap, Hb|].
      by rewrite length_fmap. }
    split; [done|]. rewrite <- (Hlen b); [done|].
    by apply list_elem_of_lookup_2 in Hb.
  - intros b Hb. split.
    + rewrite (Hlast b.1) by (by rewrite fmap_last, Hb).
      destruct (Z.eqb_spec (N mod B) 0) as [Hmod|Hmod].
      * apply Z.mod_divide in Hmod as [q Hq]; [|lia].
        assert (k - 1 < q) by nia. assert (q ≤ k) by nia.
        assert (q = k) as -> by lia. lia.
      * assert (N / B = k - 1) as ->; [|lia]. symmetry.
        apply (Z.div_unique_pos _ _ _ (N - B * (k - 1))); [|lia].
        split; [lia|].
        destruct (Z.eq_dec N (B * k)) as [HNk|HNk]; [|lia].
        exfalso. apply Hmod. rewrite HNk, Z.mul_comm. by apply Z.mod_mul; lia.
    + rewrite <- (Hlen b); [done|]. apply last_Some_elem_of in Hb. done.
Qed.

Lemma batch_iter_sizes_witness :
  ∃ (batches : list (@batch (list Z))) entries,
    batch_iter [([Int 1; Int 2], [7; 8]); ([Int 3], [9]);
                ([Tuple [1] 5], [4])] 2 = (batches, None) ∧
    mapM reshape (fst <$> [([Int 1; Int 2], [7; 8]); ([Int 3], [9]);
                           ([Tuple [1] 5], [4])]) = Ok entries ∧
    concat (fst <$> batches) = entries ∧
    concat (snd <$> batches) = [[7; 8]; [9]; [4]] ∧
    Py.len batches = (3 + 2 - 1) / 2 ∧
    (∀ (i : nat) b, batches !! i = Some b → (S i < length batches)%nat →
                    Py.len b.1 = 2 ∧ Py.len b.2 = 2) ∧
    (∀ b, last batches = Some b →
          Py.len b.1 = (if 3 mod 2 =? 0 then 2 else 3 - 2 * (3 / 2)) ∧
          Py.len b.2 = Py.len b.1).
Proof.
  apply (batch_iter_sizes
           [([Int 1; Int 2], [7; 8]); ([Int 3], [9]); ([Tuple [1] 5], [4])] 2).
  - lia.
  - discriminate.
  - repeat constructor; eexists _, _; (split; [reflexivity|]);
      repeat constructor.
Defined.

(** C8, as stated, fails on a dataset that holds an empty sentence: the
    test [type(x[0])] raises [IndexError] before any batch is yielded; and
    on a sentence that starts with a pair and holds a bare id, whose [zip]
    raises [TypeError]. *)
Lemma batch_iter_sizes_counterexample :
  batch_iter [([], [] : list Z)] 1 = ([], Some IndexError) ∧
  Py.len (batch_iter [([], [] : list Z)] 1).1
    ≠ (Py.len [([] : list token, [] : list Z)] + 1 - 1) / 1 ∧
  batch_iter [([Tuple [1] 5; Int 2], [3; 4])] 1 = ([], Some TypeError).
Proof. split; [reflexivity|]. split; [|reflexivity]. by vm_compute. Qed.

(** *** Corpus iteration *)

Section CorpusFacts.
Context `{PyText}.

Lemma iter_loop_tail (self : Dataset) (tail : list string) :
  Forall (fun line => is_boundary (Py.strip line) = false) tail →
  ∀ niter words tags, (iter_loop self niter words tags tail).1 = [].
Proof.
  induction 1 as [|line tail Hline _ IH]; intros niter words tags; [done|].
  cbn [iter_loop]. rewrite Hline.
  destruct (read_token self (Py.strip line)) as [[word tag]|e]; [|done].
  apply IH.
Qed.

Lemma iter_loop_app (self : Dataset) (tail : list string) :
  Forall (fun line => is_boundary (Py.strip line) = false) tail →
  ∀ f niter words tags,
    (iter_loop self niter words tags (f ++ tail)).1
    = (iter_loop self niter words tags f).1.
Proof.
  intros Htail. induction f as [|line f IH]; intros niter words tags.
  - cbn [app iter_loop fst]. by apply iter_loop_tail.
  - cbn [app iter_loop]. destruct (is_boundary (Py.strip line)).
    + destruct (negb (Py.len words =? 0)); [|apply IH].
      destruct (match max_iter self with
                | Some m => m <? niter + 1
                | None => false
                end); [done|].
      specialize (IH (niter + 1) [] []).
      destruct (iter_loop self (niter + 1) [] [] (f ++ tail)) as [more stop].
      destruct (iter_loop self (niter + 1) [] [] f) as [more' stop'].
      cbn [fst] in *. by rewrite IH.
    + destruct (read_token self (Py.strip line)) as [[word tag]|e]; [|done].
      apply IH.
Qed.

Lemma iter_loop_count (self : Dataset) (f : list string) :
  ∀ niter words tags,
    (length (iter_loop self niter words tags f).1
     ≤ length (filter (fun line => is_boundary (Py.strip line) = true) f))%nat.
Proof.
  induction f as [|line f IH]; intros niter words tags; [done|].
  cbn [iter_loop]. destruct (is_boundary (Py.strip line)) eqn:Hline.
  - rewrite filter_cons_True by done. cbn [length].
    destruct (negb (Py.len words =? 0)).
    + destruct (match max_iter self with
                | Some m => m <? niter + 1
                | None => false
                end); [cbn [fst length]; lia|].
      specialize (IH (niter + 1) [] []).
      destruct (iter_loop self (niter + 1) [] [] f) as [more stop].
      cbn [fst length] in *. lia.
    + specialize (IH niter words tags). lia.
  - rewrite filter_cons_False by (by rewrite Hline).
    destruct (read_token self (Py.strip line)) as [[word tag]|e];
      [apply IH|cbn [fst length]; lia].
Qed.

Lemma iter_loop_app_silent (self : Dataset) (tail : list string) :
  Forall (fun line => is_boundary (Py.strip line) = false) tail →
  Forall (fun line => ∃ wt, read_token self (Py.strip line) = Ok wt) tail →
  ∀ f niter words tags,
    iter_loop self niter words tags (f ++ tail)
    = iter_loop self niter words tags f.
Proof.
  intros Htail Hread.
  assert (∀ niter words tags,
            iter_loop self niter words tags tail = ([], None)) as Hnil.
  { clear -Htail Hread. induction Htail as [|line tail Hline _ IH];
      intros niter words tags; [done|].
    apply Forall_cons in Hread as [[[word tag] Hwt] Hread].
    cbn [iter_loop]. rewrite Hline, Hwt. by apply IH. }
  induction f as [|line f IH]; intros niter words tags.
  - cbn [app]. by rewrite Hnil.
  - cbn [app iter_loop]. destruct (is_boundary (Py.strip line)).
    + destruct (negb (Py.len words =? 0)); [|apply IH].
      destruct (match max_iter self with
                | Some m => m <? niter + 1
                | None => false
                end); [done|].
      by rewrite IH.
    + destruct (read_token self (Py.strip line)) as [[word tag]|e]; [|done].
      apply IH.
Qed.

(** C10. A sentence is yielded only at a blank line or a line that starts
    with [-DOCSTART-]: the iteration yields at most one sentence per such
    line, and the lines of the file that come after the last of them,
    whatever tokens they hold, add nothing to what the iteration yields:
    the sentence they form is dropped at the end of the file.  When
    these lines are well formed the iteration also ends as it does without
    them: nothing signals the loss. *)
Theorem Dataset_iter_drops_unterminated (self : Dataset)
    (f tail : list string) :
  Forall (fun line => is_boundary (Py.strip line) = false) tail →
  (Dataset_iter self (f ++ tail)).1 = (Dataset_iter self f).1 ∧
  (length (Dataset_iter self (f ++ tail)).1
   ≤ length (filter (fun line => is_boundary (Py.strip line) = true) f))%nat ∧
  (Forall (fun line => ∃ wt, read_token self (Py.strip line) = Ok wt) tail →
   Dataset_iter self (f ++ tail) = Dataset_iter self f).
Proof.
  intros Htail. unfold Dataset_iter.
  rewrite iter_loop_app by done. split; [done|].
  split; [apply iter_loop_count|].
  intros Hread. by apply iter_loop_app_silent.
Qed.

End CorpusFacts.

Lemma Dataset_iter_drops_unterminated_witness :
  (Dataset_iter sample_dataset
     (["EU B-ORG" ++ Re.newline; Re.newline]%string
      ++ ["rejects O" ++ Re.newline]%string)).1
  = (Dataset_iter sample_dataset
       ["EU B-ORG" ++ Re.newline; Re.newline]%string).1 ∧
  (length (Dataset_iter sample_dataset
             (["EU B-ORG" ++ Re.newline; Re.newline]%string
              ++ ["rejects O" ++ Re.newline]%string)).1
   ≤ length (filter (fun line => is_boundary (Py.strip line) = true)
                    ["EU B-ORG" ++ Re.newline; Re.newline]%string))%nat ∧
  (Forall (fun line => ∃ wt,
             read_token sample_dataset (Py.strip line) = Ok wt)
          ["rejects O" ++ Re.newline]%string →
   Dataset_iter sample_dataset
     (["EU B-ORG" ++ Re.newline; Re.newline]%string
      ++ ["rejects O" ++ Re.newline]%string)
   = Dataset_iter sample_dataset
       ["EU B-ORG" ++ Re.newline; Re.newline]%string).
Proof.
  apply (Dataset_iter_drops_unterminated sample_dataset).
  repeat constructor.
Defined.

Example Dataset_iter_sample :
  Dataset_iter sample_dataset
    ["EU B-ORG" ++ Re.newline; Re.newline; "rejects O" ++ Re.newline]%string
  = ([([Str "EU"], [Str "B-ORG"])], None).
Proof. reflexivity. Qed.

(** ** Further properties of the padder *)

(** X1. With a target length [m >= 0], the entry [k < m] of the padded row
    of [s] is the element [k] of [s] when [s] has one, and the pad value
    otherwise. *)
Theorem pad_sequences_entry {A} (sequences : list (list A)) (p : A) (m : Z)
    (i k : nat) (s : list A) :
  0 ≤ m → sequences !! i = Some s → (k < Z.to_nat m)%nat →
  ∃ r, (_pad_sequences sequences p m).1 !! i = Some r ∧
       r !! k = Some (default p (s !! k)).
Proof.
  intros Hm Hs Hk. rewrite _pad_sequences_map. cbn [fst].
  rewrite list_lookup_fmap, Hs. cbn [fmap option_fmap option_map].
  eexists. split; [reflexivity|]. rewrite pad_one_take by done.
  destruct (s !! k) as [x|] eqn:Hx; cbn [default].
  - rewrite lookup_app_l by (rewrite length_take; apply lookup_lt_Some in Hx; lia).
    by rewrite lookup_take_lt.
  - apply lookup_ge_None in Hx. rewrite take_ge by lia.
    rewrite lookup_app_r by done. apply lookup_replicate_2. lia.
Qed.

Lemma pad_sequences_entry_witness :
  ∃ r, (_pad_sequences [[1; 2; 3]; [7]] 0 2).1 !! 1%nat = Some r ∧
       r !! 1%nat = Some (default 0 ([7] !! 1%nat)).
Proof.
  apply (pad_sequences_entry [[1; 2; 3]; [7]] 0 2 1 1 [7]);
    [lia|reflexivity|lia].
Defined.

Lemma pad_one_fixed {A} (p : A) m (r : list A) :
  Py.len r = m → pad_one p m r = (r, m).
Proof.
  intros Hr. unfold pad_one, Py.slice_to, Py.len in *.
  assert ((Z.of_nat (length r) <? m) = false) as -> by lia.
  assert ((m <? 0) = false) as -> by lia.
  rewrite take_ge by lia. f_equal. lia.
Qed.

(** X2. Padding is idempotent: padding the rows that [_pad_sequences]
    returns again, to the same target [m >= 0], returns the same rows and
    reports [m] as the length of each. *)
Theorem pad_sequences_idempotent {A} (sequences : list (list A)) (p : A)
    (m : Z) :
  0 ≤ m →
  _pad_sequences (_pad_sequences sequences p m).1 p m
  = ((_pad_sequences sequences p m).1, replicate (length sequences) m).
Proof.
  intros Hm. rewrite !_pad_sequences_map. cbn [fst].
  rewrite <- !list_fmap_compose. f_equal.
  - apply list_fmap_ext. intros _ s _. cbn [compose].
    by rewrite pad_one_fixed by (by apply pad_one_length).
  - induction sequences as [|s ss IH]; [done|].
    cbn [fmap list_fmap length replicate compose]. f_equal; [|exact IH].
    by rewrite pad_one_fixed by (by apply pad_one_length).
Qed.

Lemma pad_sequences_idempotent_witness :
  _pad_sequences (_pad_sequences [[1; 2; 3]; [7]] 0 2).1 0 2
  = ((_pad_sequences [[1; 2; 3]; [7]] 0 2).1, replicate 2 2).
Proof. apply (pad_sequences_idempotent [[1; 2; 3]; [7]] 0 2). lia. Defined.

(** X3. Without a target length, the branch [nlevels == 1] pads a
    non-empty list of sequences to the length of the longest: no element
    is lost, every row is its sequence followed by pad values, and the
    reported lengths are the lengths of the sequences. *)
Theorem pad_sequences_default_target {A} (sequences : list (list A)) (p : A) :
  sequences ≠ [] →
  ∃ m padded,
    pad_sequences_nlevels1 sequences None p
      = Ok (padded, Py.len <$> sequences) ∧
    m ∈ Py.len <$> sequences ∧
    Forall (fun s => Py.len s ≤ m) sequences ∧
    padded = (fun s => s ++ replicate (Z.to_nat (m - Py.len s)) p)
               <$> sequences.
Proof.
  intros Hne. destruct (max_of_spec (Py.len <$> sequences)) as (m & Hm & Hin & Hle).
  { by destruct sequences. }
  rewrite Forall_fmap in Hle.
  exists m, ((fun s => s ++ replicate (Z.to_nat (m - Py.len s)) p) <$> sequences).
  unfold pad_sequences_nlevels1. rewrite Hm. cbn [mbind result_bind].
  rewrite _pad_sequences_map. split; [|by repeat split].
  rewrite Forall_forall in Hle. do 2 f_equal.
  - apply list_fmap_ext. intros _ s Hs%list_elem_of_lookup_2.
    specialize (Hle s Hs). cbn [compose] in Hle.
    rewrite pad_one_short by done. do 2 f_equal. unfold Py.len. lia.
  - apply list_fmap_ext. intros _ s Hs%list_elem_of_lookup_2.
    specialize (Hle s Hs). cbn [compose] in Hle. cbn [pad_one snd]. lia.
Qed.

Lemma pad_sequences_default_target_witness :
  ∃ m padded,
    pad_sequences_nlevels1 [[1; 2; 3]; [7]] None 0
      = Ok (padded, Py.len <$> [[1; 2; 3]; [7]]) ∧
    m ∈ Py.len <$> [[1; 2; 3]; [7]] ∧
    Forall (fun s => Py.len s ≤ m) [[1; 2; 3]; [7]] ∧
    padded = (fun s => s ++ replicate (Z.to_nat (m - Py.len s)) 0)
               <$> [[1; 2; 3]; [7]].
Proof. apply (pad_sequences_default_target [[1; 2; 3]; [7]] 0). discriminate. Defined.

(** X4. A negative target length [m] pads nothing: every row is its
    sequence without its last [-m] elements, and the length reported for
    it is [m] itself, a negative number. *)
Theorem pad_sequences_negative_target {A} (sequences : list (list A)) (p : A)
    (m : Z) :
  m < 0 →
  _pad_sequences sequences p m
  = ((fun s => take (length s - Z.to_nat (- m)) s) <$> sequences,
     replicate (length sequences) m).
Proof.
  intros Hm. rewrite _pad_sequences_map. f_equal.
  - apply list_fmap_ext. intros _ s _. unfold pad_one, Py.slice_to, Py.len.
    cbn [fst].
    assert ((Z.of_nat (length s) <? m) = false) as -> by (apply Z.ltb_ge; lia).
    assert ((m <? 0) = true) as -> by (by apply Z.ltb_lt). f_equal. lia.
  - induction sequences as [|s ss IH]; [done|].
    cbn [fmap list_fmap length replicate]. f_equal; [|exact IH].
    unfold pad_one, Py.len. cbn [snd]. lia.
Qed.

Lemma pad_sequences_negative_target_witness :
  _pad_sequences [[1; 2; 3]; [7]] 0 (-1)
  = ((fun s => take (length s - Z.to_nat (- -1)) s) <$> [[1; 2; 3]; [7]],
     replicate 2 (-1)).
Proof. apply (pad_sequences_negative_target [[1; 2; 3]; [7]] 0 (-1)). lia. Defined.

Lemma pad_one_lookup {A} (p : A) m (s : list A) (k : nat) :
  0 ≤ m → (k < Z.to_nat m)%nat →
  (pad_one p m s).1 !! k = Some (default p (s !! k)).
Proof.
  intros Hm Hk. rewrite pad_one_take by done.
  destruct (s !! k) as [x|] eqn:Hx; cbn [default].
  - rewrite lookup_app_l by (rewrite length_take; apply lookup_lt_Some in Hx; lia).
    by rewrite lookup_take_lt.
  - apply lookup_ge_None in Hx. rewrite take_ge by lia.
    rewrite lookup_app_r by done. apply lookup_replicate_2. lia.
Qed.

Lemma pad_two_level_result {A} (sequences : list (list (list A)))
    (max_length : option Z) (p : A) (max_length_word : option Z) :
  sequences ≠ [] →
  Forall (fun sent => sent ≠ []) sequences →
  (∀ w, max_length_word = Some w → 0 ≤ w) →
  (∀ s, max_length = Some s → 0 ≤ s) →
  ∃ W S,
    is_target max_length_word (Py.len <$> concat sequences) W ∧
    is_target max_length (Py.len <$> sequences) S ∧
    0 ≤ W ∧ 0 ≤ S ∧
    pad_sequences_nlevels2 sequences max_length p max_length_word
    = Ok ((fun sent =>
             (pad_one (Py.times p W) S
                      ((fun word => (pad_one p W word).1) <$> sent)).1)
            <$> sequences,
          (fun sent =>
             (pad_one 0 S ((fun word => (pad_one p W word).2) <$> sent)).1)
            <$> sequences).
Proof.
  intros Hne Hsent HW HS.
  assert (∃ W, match max_length_word with
               | None =>
                   ms ← mapM (fun seq => Py.max_of (Py.len <$> seq)) sequences;
                   Py.max_of ms
               | Some w => Ok w
               end = Ok W ∧
               is_target max_length_word (Py.len <$> concat sequences) W ∧
               0 ≤ W) as (W & HeW & HtW & HW0).
  { destruct max_length_word as [w|]; [exists w; repeat split; by apply HW|].
    destruct (mapM_max_of sequences Hsent) as (ms & -> & Hlen & Hin & Hle).
    cbn [mbind result_bind].
    destruct (max_of_spec ms) as (W & -> & HWin & HWle).
    { destruct ms; [|done]. destruct sequences; done. }
    exists W. split; [done|].
    rewrite Forall_forall in Hin. specialize (Hin W HWin).
    split; [split; [done|]|].
    - rewrite Forall_forall in Hle, HWle. apply Forall_forall. intros n Hn.
      apply Hle, Exists_exists in Hn as (m & Hm & Hnm).
      specialize (HWle m Hm). simpl in HWle. lia.
    - apply list_elem_of_fmap in Hin as (word & -> & _). unfold Py.len. lia. }
  assert (∃ S, match max_length with
               | None => Py.max_of (Py.len <$> sequences)
               | Some m => Ok m
               end = Ok S ∧
               is_target max_length (Py.len <$> sequences) S ∧
               0 ≤ S) as (S & HeS & HtS & HS0).
  { destruct max_length as [s|]; [exists s; repeat split; by apply HS|].
    destruct (max_of_spec (Py.len <$> sequences)) as (S & -> & HSin & HSle).
    { by destruct sequences. }
    exists S. split; [done|]. split; [done|].
    apply list_elem_of_fmap in HSin as (sent & -> & _). unfold Py.len. lia. }
  exists W, S. repeat (split; [done|]).
  unfold pad_sequences_nlevels2. rewrite HeW. cbn [mbind result_bind].
  rewrite pad_words_map, HeS. cbn [mbind result_bind].
  rewrite !_pad_sequences_map. rewrite <- !list_fmap_compose.
  do 2 f_equal; apply list_fmap_ext; intros _ sent _; cbn [compose];
    by rewrite _pad_sequences_map.
Qed.

(** X5. Two-level padding, entry by entry.  Under the conditions of the
    shape property, for [j] below the sentence target [S] and [k] below
    the word target [W], the entry [(i, j, k)] of the padded data is the
    character [k] of the word [j] of the sentence [i] when there is one,
    and the pad value otherwise; the entry [(i, j)] of the lengths is
    [min(len(word), W)] for the word [j] of the sentence [i] when there is
    one, and [0] otherwise. *)
Theorem pad_sequences_two_level_entry {A} (sequences : list (list (list A)))
    (max_length : option Z) (p : A) (max_length_word : option Z) :
  sequences ≠ [] →
  Forall (fun sent => sent ≠ []) sequences →
  (∀ w, max_length_word = Some w → 0 ≤ w) →
  (∀ s, max_length = Some s → 0 ≤ s) →
  ∃ W S padded lengths,
    pad_sequences_nlevels2 sequences max_length p max_length_word
      = Ok (padded, lengths) ∧
    is_target max_length_word (Py.len <$> concat sequences) W ∧
    is_target max_length (Py.len <$> sequences) S ∧
    ∀ (i j : nat) sent,
      sequences !! i = Some sent → (j < Z.to_nat S)%nat →
      (∃ ls, lengths !! i = Some ls ∧
             ls !! j = Some (from_option (fun word => Z.min (Py.len word) W)
                                         0 (sent !! j))) ∧
      ∀ k : nat, (k < Z.to_nat W)%nat →
        ∃ row word, padded !! i = Some row ∧ row !! j = Some word ∧
                    word !! k
                    = Some (default p (sent !! j ≫= fun word => word !! k)).
Proof.
  intros Hne Hsent HW HS.
  destruct (pad_two_level_result sequences max_length p max_length_word)
    as (W & S & HtW & HtS & HW0 & HS0 & Hres); [done..|].
  eexists W, S, _, _. split; [exact Hres|]. split; [done|]. split; [done|].
  intros i j sent Hi Hj. rewrite !list_lookup_fmap, Hi.
  cbn [fmap option_fmap option_map]. split.
  - eexists. split; [reflexivity|]. rewrite pad_one_lookup by done.
    rewrite list_lookup_fmap. by destruct (sent !! j).
  - intros k Hk. eexists _, _. split; [reflexivity|].
    rewrite pad_one_lookup by done. split; [reflexivity|].
    rewrite list_lookup_fmap. destruct (sent !! j) as [word|].
    + cbn [fmap option_fmap option_map default mbind option_bind].
      by apply pad_one_lookup.
    + cbn [fmap option_fmap option_map default mbind option_bind].
      apply lookup_replicate_2. lia.
Qed.

Lemma pad_sequences_two_level_entry_witness :
  ∃ W S padded lengths,
    pad_sequences_nlevels2 [[[1; 2; 3]; [7]]; [[4]]] None 0 None
      = Ok (padded, lengths) ∧
    is_target None (Py.len <$> concat [[[1; 2; 3]; [7]]; [[4]]]) W ∧
    is_target None (Py.len <$> [[[1; 2; 3]; [7]]; [[4]]]) S ∧
    ∀ (i j : nat) sent,
      [[[1; 2; 3]; [7]]; [[4]]] !! i = Some sent → (j < Z.to_nat S)%nat →
      (∃ ls, lengths !! i = Some ls ∧
             ls !! j = Some (from_option (fun word => Z.min (Py.len word) W)
                                         0 (sent !! j))) ∧
      ∀ k : nat, (k < Z.to_nat W)%nat →
        ∃ row word, padded !! i = Some row ∧ row !! j = Some word ∧
                    word !! k
                    = Some (default 0 (sent !! j ≫= fun word => word !! k)).
Proof.
  apply (pad_sequences_two_level_entry [[[1; 2; 3]; [7]]; [[4]]] None 0 None).
  - discriminate.
  - repeat constructor; discriminate.
  - intros w Hw. discriminate Hw.
  - intros s Hs. discriminate Hs.
Defined.

(** ** Further properties of the chunk extractor *)

Lemma getitem_raise tags key e : Py.getitem tags key = Raise e → e = KeyError.
Proof.
  induction tags as [|[k v] tags IH]; cbn [Py.getitem]; [by intros [= <-]|].
  by destruct (String.eqb k key).
Qed.

Lemma get_chunk_type_raise idx tok e :
  get_chunk_type tok idx = Raise e → e = KeyError ∧ idx !! tok = None.
Proof.
  destruct (idx !! tok) as [name|] eqn:Hname.
  - destruct (get_chunk_type_total _ _ _ Hname) as (cls & ty & ->). done.
  - unfold get_chunk_type. rewrite Hname. by intros [= <-].
Qed.

Lemma get_chunk_type_ok idx tok cls ty :
  get_chunk_type tok idx = Ok (cls, ty) → is_Some (idx !! tok).
Proof.
  unfold get_chunk_type. destruct (idx !! tok); [by eexists|done].
Qed.

Lemma chunk_step_raise d idx st i tok e :
  chunk_step d idx st i tok = Raise e →
  e = KeyError ∧ tok ≠ d ∧ idx !! tok = None.
Proof.
  destruct st as [chunks open]. unfold chunk_step.
  destruct (Z.eqb_spec tok d) as [->|Hne].
  - by destruct open as [[ty start]|].
  - destruct (get_chunk_type tok idx) as [[cls ty]|e'] eqn:Hty.
    + cbn [mbind result_bind]. destruct open as [[ty0 start]|]; [|done].
      by destruct (negb _ || _).
    + cbn [mbind result_bind]. intros [= <-].
      by destruct (get_chunk_type_raise _ _ _ Hty).
Qed.

Lemma chunk_step_ok d idx st i tok st' :
  chunk_step d idx st i tok = Ok st' → tok ≠ d → is_Some (idx !! tok).
Proof.
  destruct st as [chunks open]. unfold chunk_step.
  intros Hstep Hne. apply Z.eqb_neq in Hne. rewrite Hne in Hstep.
  destruct (get_chunk_type tok idx) as [[cls ty]|e] eqn:Hty; [|done].
  by eapply get_chunk_type_ok.
Qed.

Lemma scan_raise d idx (seq : list Z) : ∀ st i e,
  scan d idx st i seq = Raise e → e = KeyError.
Proof.
  induction seq as [|tok seq IH]; intros st i e; cbn [scan]; [done|].
  destruct (chunk_step d idx st i tok) as [st'|e'] eqn:Hstep;
    cbn [mbind result_bind].
  - apply IH.
  - intros [= <-]. by destruct (chunk_step_raise _ _ _ _ _ _ Hstep).
Qed.

Lemma scan_ok d idx (seq : list Z) : ∀ st i st',
  scan d idx st i seq = Ok st' →
  Forall (fun tok => tok ≠ d → is_Some (idx !! tok)) seq.
Proof.
  induction seq as [|tok seq IH]; intros st i st'; cbn [scan]; [by constructor|].
  destruct (chunk_step d idx st i tok) as [st0|e] eqn:Hstep;
    cbn [mbind result_bind]; [|done].
  intros Hscan. constructor; [|by eapply IH].
  by eapply chunk_step_ok.
Qed.

(** X6. [get_chunks] raises nothing but [KeyError], and it returns a list
    of chunks exactly when the tag mapping holds [O] and every id of the
    sequence other than the id of [O] is the id of some tag. *)
Theorem get_chunks_fails_only_on_missing_key (seq : list Z)
    (tags : list (string * Z)) :
  (∀ e, get_chunks seq tags = Raise e → e = KeyError) ∧
  ((∃ chunks, get_chunks seq tags = Ok chunks) ↔
   ∃ default, Py.getitem tags NONE = Ok default ∧
     Forall (fun tok => tok ≠ default → is_Some (invert tags !! tok)) seq).
Proof.
  unfold get_chunks. split; [|split].
  - intros e. destruct (Py.getitem tags NONE) as [d|e'] eqn:Hd;
      cbn [mbind result_bind].
    + destruct (scan d (invert tags) ([], None) 0 seq) as [st|e'] eqn:Hscan;
        cbn [mbind result_bind]; [done|].
      intros [= <-]. by eapply scan_raise.
    + intros [= <-]. by eapply getitem_raise.
  - intros [chunks Hget].
    destruct (Py.getitem tags NONE) as [d|e'] eqn:Hd; [|done].
    cbn [mbind result_bind] in Hget. exists d. split; [done|].
    destruct (scan d (invert tags) ([], None) 0 seq) as [st|e'] eqn:Hscan;
      [|done].
    by eapply scan_ok.
  - intros (d & -> & Hall). cbn [mbind result_bind].
    destruct (scan_total d (invert tags) ([], None) 0 seq Hall) as [st ->].
    by eexists.
Qed.

Lemma get_chunks_fails_only_on_missing_key_witness :
  get_chunks [7] [("B-PER", 1); ("O", 0)] = Raise KeyError.
Proof.
  destruct (get_chunks_fails_only_on_missing_key [7] [("B-PER", 1); ("O", 0)])
    as [Hkey _].
  destruct (get_chunks [7] [("B-PER", 1); ("O", 0)]) as [chunks|e] eqn:Hget.
  - discriminate Hget.
  - by rewrite (Hkey e eq_refl).
Defined.

(** X7. Default ids added at the end of a sequence change nothing: the
    chunks of the sequence followed by any number of ids of [O] are the
    chunks of the sequence. *)
Theorem get_chunks_trailing_default (seq : list Z) (tags : list (string * Z))
    (default : Z) (k : nat) :
  Py.getitem tags NONE = Ok default →
  get_chunks (seq ++ replicate k default) tags = get_chunks seq tags.
Proof.
  intros Hd. unfold get_chunks. rewrite Hd. cbn [mbind result_bind].
  rewrite scan_app.
  destruct (scan default (invert tags) ([], None) 0 seq) as [[chunks open]|e];
    cbn [mbind result_bind]; [|done].
  rewrite scan_default_run. cbn [mbind result_bind]. f_equal.
  rewrite length_app, length_replicate. destruct k as [|k].
  - by rewrite Nat.add_0_r.
  - cbn [close_last]. by destruct open as [[ty start]|]; [|rewrite app_nil_r].
Qed.

Lemma get_chunks_trailing_default_witness :
  get_chunks ([1; 1] ++ replicate 3 0) [("B-PER", 1); ("O", 0)]
  = get_chunks [1; 1] [("B-PER", 1); ("O", 0)].
Proof.
  apply (get_chunks_trailing_default [1; 1] [("B-PER", 1); ("O", 0)] 0 3).
  reflexivity.
Defined.


Lemma run_of_snoc d idx pre tok ty start stop :
  (stop ≤ length pre)%nat →
  run_of d idx pre ty start stop → run_of d idx (pre ++ [tok]) ty start stop.
Proof.
  intros Hstop Hrun k Hk1 Hk2. destruct (Hrun k Hk1 Hk2) as (t & cls & Ht & ?).
  exists t, cls. by rewrite lookup_app_l by lia.
Qed.

Lemma stops_at_snoc d idx pre tok ty stop :
  stops_at d idx pre ty stop → stops_at d idx (pre ++ [tok]) ty stop.
Proof.
  intros (t & Ht & Hstop). exists t. split; [|done].
  rewrite lookup_app_l; [done|]. by apply lookup_lt_Some in Ht.
Qed.

Lemma run_of_extend d idx pre tok cls ty start :
  (start ≤ length pre)%nat →
  run_of d idx pre ty start (length pre) →
  tok ≠ d → get_chunk_type tok idx = Ok (cls, ty) →
  ((start < length pre)%nat → cls ≠ "B") →
  run_of d idx (pre ++ [tok]) ty start (length pre + 1).
Proof.
  intros Hstart Hrun Hne Hty Hcls k Hk1 Hk2.
  destruct (Nat.eq_dec k (length pre)) as [->|Hk].
  - exists tok, cls. by rewrite list_lookup_middle.
  - destruct (Hrun k) as (t & c & Ht & ?); [lia..|].
    exists t, c. by rewrite lookup_app_l by lia.
Qed.

Lemma run_inv_chunks_snoc d idx pre tok chunks :
  Forall (fun c : chunk =>
            run_of d idx pre c.1.1 c.1.2 c.2 ∧ stops_at d idx pre c.1.1 c.2)
         chunks →
  Forall (fun c : chunk =>
            run_of d idx (pre ++ [tok]) c.1.1 c.1.2 c.2 ∧
            stops_at d idx (pre ++ [tok]) c.1.1 c.2) chunks.
Proof.
  intros Hall. eapply Forall_impl; [exact Hall|].
  intros c [Hrun Hstop]. split; [|by apply stops_at_snoc].
  apply run_of_snoc; [|done].
  destruct Hstop as (t & Ht%lookup_lt_Some & _). lia.
Qed.

Lemma run_inv_step d idx pre st tok st' :
  run_inv d idx pre st →
  chunk_step d idx st (length pre) tok = Ok st' →
  run_inv d idx (pre ++ [tok]) st'.
Proof.
  destruct st as [chunks open]. unfold run_inv, chunk_step.
  rewrite length_app. cbn [fst snd length].
  intros [Hchunks Hopen] Hstep.
  pose proof (run_inv_chunks_snoc d idx pre tok chunks Hchunks) as Hchunks'.
  assert (∀ ty start,
            (start < length pre)%nat →
            run_of d idx pre ty start (length pre) →
            stops_at d idx (pre ++ [tok]) ty (length pre) →
            Forall (fun c : chunk =>
                      run_of d idx (pre ++ [tok]) c.1.1 c.1.2 c.2 ∧
                      stops_at d idx (pre ++ [tok]) c.1.1 c.2)
                   (chunks ++ [(ty, start, length pre)])) as Hclose.
  { intros ty start Hlt Hrun Hstop. apply Forall_app. split; [done|].
    constructor; [|constructor]. cbn [fst snd]. split; [|done].
    by apply run_of_snoc. }
  destruct (Z.eqb_spec tok d) as [->|Hne].
  - destruct open as [[ty start]|]; injection Hstep as <-; cbn [fst snd];
      [|done].
    destruct Hopen as [Hlt Hrun]. split; [|done]. apply Hclose; [done..|].
    exists d. rewrite list_lookup_middle by done. split; [done|]. by left.
  - destruct (get_chunk_type tok idx) as [[cls ty]|e] eqn:Hty; [|done].
    cbn [mbind result_bind] in Hstep.
    assert (run_of d idx (pre ++ [tok]) ty (length pre) (length pre + 1))
      as Hnew.
    { intros k Hk1 Hk2. replace k with (length pre) by lia.
      exists tok, cls. rewrite list_lookup_middle by done.
      repeat split; [done..|lia]. }
    destruct open as [[ty0 start]|].
    + destruct Hopen as [Hlt Hrun].
      destruct (negb (String.eqb ty ty0) || String.eqb cls "B") eqn:Hsw;
        injection Hstep as <-; cbn [fst snd].
      * split; [|split; [lia|done]]. apply Hclose; [done..|].
        exists tok. rewrite list_lookup_middle by done. split; [done|].
        right. exists cls, ty. split; [done|].
        apply orb_true_iff in Hsw as [Hsw|Hsw].
        -- left. by apply negb_true_iff, String.eqb_neq in Hsw.
        -- right. by apply String.eqb_eq.
      * apply orb_false_iff in Hsw as [Hsame Hcls].
        apply negb_false_iff, String.eqb_eq in Hsame. subst ty0.
        apply String.eqb_neq in Hcls.
        split; [done|]. split; [lia|]. by eapply run_of_extend; [lia|..].
    + injection Hstep as <-; cbn [fst snd]. split; [done|]. split; [lia|done].
Qed.

Lemma run_inv_holds d idx (seq : list Z) st :
  scan d idx ([], None) 0 seq = Ok st → run_inv d idx seq st.
Proof.
  revert st. induction seq as [|tok pre IH] using rev_ind; intros st.
  - intros [= <-]. unfold run_inv. cbn [fst snd]. by split.
  - rewrite scan_snoc. destruct (scan d idx ([], None) 0 pre) as [st0|e];
      cbn [mbind result_bind]; [|done].
    intros Hstep. eapply run_inv_step; [by apply IH|exact Hstep].
Qed.

(** X8. Every chunk [(ty, start, end)] that [get_chunks] returns is a run
    of one type: every index of [start, end) carries a non-default tag
    whose decoded type is [ty], and none after [start] has the prefix [B].
    The chunk ends where it must: at the end of the sequence, or at a
    default tag, a tag of another type or a tag with the prefix [B]. *)
Theorem get_chunks_runs (seq : list Z) (tags : list (string * Z))
    (default : Z) (chunks : list chunk) :
  Py.getitem tags NONE = Ok default →
  get_chunks seq tags = Ok chunks →
  Forall (fun c : chunk =>
            run_of default (invert tags) seq c.1.1 c.1.2 c.2 ∧
            (c.2 = length seq ∨
             stops_at default (invert tags) seq c.1.1 c.2)) chunks.
Proof.
  intros Hd. unfold get_chunks. rewrite Hd. cbn [mbind result_bind].
  destruct (scan default (invert tags) ([], None) 0 seq)
    as [[found open]|e] eqn:Hscan; cbn [mbind result_bind]; [|done].
  intros [= <-]. apply run_inv_holds in Hscan as [Hfound Hopen].
  cbn [fst snd] in *.
  assert (Forall (fun c : chunk =>
            run_of default (invert tags) seq c.1.1 c.1.2 c.2 ∧
            (c.2 = length seq ∨
             stops_at default (invert tags) seq c.1.1 c.2)) found) as Hfound'.
  { eapply Forall_impl; [exact Hfound|]. intros c [? ?]. auto. }
  destruct open as [[ty start]|]; cbn [close_last]; [|done].
  apply Forall_app. split; [done|]. constructor; [|constructor].
  cbn [fst snd]. destruct Hopen as [_ Hrun]. auto.
Qed.

Lemma get_chunks_runs_witness :
  Forall (fun c : chunk =>
            run_of 0 (invert [("B-PER", 4); ("I-PER", 5); ("B-LOC", 3); ("O", 0)])
                   [4; 5; 0; 3] c.1.1 c.1.2 c.2 ∧
            (c.2 = length [4; 5; 0; 3] ∨
             stops_at 0 (invert [("B-PER", 4); ("I-PER", 5); ("B-LOC", 3);
                                 ("O", 0)])
                      [4; 5; 0; 3] c.1.1 c.2))
         [("PER", 0%nat, 2%nat); ("LOC", 3%nat, 4%nat)].
Proof.
  apply (get_chunks_runs [4; 5; 0; 3]
           [("B-PER", 4); ("I-PER", 5); ("B-LOC", 3); ("O", 0)] 0);
    reflexivity.
Defined.

Lemma split_dash_cons c s :
  Py.split_go "-" 0 (String c s)
  = if Ascii.eqb c "-" then "" :: Py.split_go "-" 0 s
    else match Py.split_go "-" 0 s with
         | w :: ws => String c w :: ws
         | [] => [String c ""]
         end.
Proof.
  cbn [Py.split_go String.prefix String.length Nat.sub].
  destruct (Ascii.eqb_spec c "-") as [->|Hc].
  - destruct (ascii_dec "-" "-") as [_|?]; [|done].
    by assert (String.prefix "" s = true) as -> by (by destruct s).
  - by destruct (ascii_dec "-" c) as [<-|_].
Qed.

Lemma join_cons sep x y l :
  join sep (x :: y :: l) = (x ++ sep ++ join sep (y :: l))%string.
Proof. reflexivity. Qed.

Lemma split_dash_pieces s :
  join "-" (Py.split_go "-" 0 s) = s ∧
  Forall (fun w => no_dash w = true) (Py.split_go "-" 0 s).
Proof.
  induction s as [|c s [Hjoin Hall]]; [by repeat constructor|].
  rewrite split_dash_cons.
  pose proof (split_go_nonempty "-" 0 s) as Hne.
  destruct (Py.split_go "-" 0 s) as [|w ws]; [done|].
  destruct (Ascii.eqb_spec c "-") as [->|Hc].
  - split; [|by constructor]. by rewrite join_cons, Hjoin.
  - apply Forall_cons in Hall as [Hw Hws]. split.
    + destruct ws as [|w' ws]; [cbn [join] in *; by rewrite Hjoin|].
      rewrite join_cons in *. by rewrite append_cons, Hjoin.
    + constructor; [|done]. cbn [no_dash].
      apply Ascii.eqb_neq in Hc. by rewrite Hc, Hw.
Qed.

(** X9. [get_chunk_type] cuts the name of the tag at its [-]: the name is
    a list of pieces without [-], joined by [-]; the class returned is the
    first piece and the type the last one.  A name without [-], such as
    [O], is its own class and type. *)
Theorem get_chunk_type_pieces (idx_to_tag : gmap Z string) (tok : Z)
    (tag_name : string) :
  idx_to_tag !! tok = Some tag_name →
  ∃ first pieces,
    join "-" (first :: pieces) = tag_name ∧
    Forall (fun w => no_dash w = true) (first :: pieces) ∧
    get_chunk_type tok idx_to_tag = Ok (first, default first (last pieces)).
Proof.
  intros Hname. destruct (split_dash_pieces tag_name) as [Hjoin Hall].
  pose proof (split_go_nonempty "-" 0 tag_name) as Hne.
  unfold get_chunk_type, Py.split. rewrite Hname.
  cbn [String.eqb mbind result_bind].
  destruct (Py.split_go "-" 0 tag_name) as [|first pieces]; [done|].
  exists first, pieces. split; [done|]. split; [done|].
  rewrite index_first. cbn [mbind result_bind].
  destruct (exists_last (l := first :: pieces)) as (init & z & Heq); [done|].
  rewrite Heq, index_last. cbn [mbind result_bind]. do 2 f_equal.
  destruct pieces as [|w ws].
  - destruct init as [|? [|]]; by inversion Heq.
  - change (last (w :: ws)) with (last (first :: w :: ws)).
    by rewrite Heq, last_snoc.
Qed.

Lemma get_chunk_type_pieces_witness :
  ∃ first pieces,
    join "-" (first :: pieces) = "B-geo-loc" ∧
    Forall (fun w => no_dash w = true) (first :: pieces) ∧
    get_chunk_type 3 {[3 := "B-geo-loc"]}
      = Ok (first, default first (last pieces)).
Proof. apply (get_chunk_type_pieces {[3 := "B-geo-loc"]} 3). reflexivity. Defined.

(** X10. When several tag names have one id, the inverted mapping keeps
    the name inserted last; an id is absent from it exactly when no tag
    has it. *)
Theorem invert_last_wins (tags1 tags2 : list (string * Z)) (tag : string)
    (idx : Z) :
  idx ∉ tags2.*2 →
  invert (tags1 ++ (tag, idx) :: tags2) !! idx = Some tag ∧
  (∀ idx', invert tags1 !! idx' = None ↔ idx' ∉ tags1.*2).
Proof.
  intros Hfresh. split.
  - induction tags2 as [|[k v] tags2 IH] using rev_ind.
    + by rewrite invert_snoc, lookup_insert_eq.
    + rewrite fmap_app, not_elem_of_app in Hfresh. destruct Hfresh as [Hf Hv].
      rewrite app_comm_cons, app_assoc, invert_snoc.
      rewrite lookup_insert_ne; [by apply IH|].
      intros ->. apply Hv. by left.
  - intros idx'. induction tags1 as [|[k v] tags1 IH] using rev_ind.
    + split; [intros _; apply not_elem_of_nil|done].
    + rewrite invert_snoc, fmap_app, not_elem_of_app. cbn [fmap list_fmap snd].
      destruct (decide (v = idx')) as [->|Hne].
      * rewrite lookup_insert_eq. split; [done|].
        intros [_ Hv]. exfalso. apply Hv. by left.
      * rewrite lookup_insert_ne by done. rewrite IH. split.
        -- intros ?. split; [done|]. by intros ->%list_elem_of_singleton.
        -- by intros [? _].
Qed.

Lemma invert_last_wins_witness :
  invert ([("B-PER", 1)] ++ ("I-PER", 1) :: [("O", 0)]) !! 1 = Some "I-PER" ∧
  (∀ idx', invert [("B-PER", 1)] !! idx' = None ↔ idx' ∉ [("B-PER", 1)].*2).
Proof.
  apply (invert_last_wins [("B-PER", 1)] [("O", 0)] "I-PER" 1).
  cbn. intros Hin%list_elem_of_singleton. discriminate Hin.
Defined.

(** ** Further properties of the word encoder *)

Section EncoderFacts.
Context `{PyText}.

(** X11. [is_digit] accepts a string exactly when [float] parses it, or
    [unicodedata.numeric] gives it a value, or it is an optional sign,
    digits, a comma and digits, possibly followed by one newline. *)
Theorem is_digit_characterized (s : string) :
  is_digit s = true ↔
  float_parses s = true ∨ numeric_defined s = true ∨
  signed_comma_number s ∨
  ∃ s', s = (s' ++ Re.newline)%string ∧ signed_comma_number s'.
Proof. rewrite is_digit_iff, comma_number_iff. tauto. Qed.

Lemma chars_of_acc (cv : gmap string Z) (cs : list string) (acc : list Z) :
  foldl (fun char_ids char =>
           match cv !! char with
           | Some id => char_ids ++ [id]
           | None => char_ids
           end) acc cs
  = acc ++ omap (fun char => cv !! char) cs.
Proof.
  revert acc. induction cs as [|c cs IH]; intros acc;
    cbn [foldl omap list_omap].
  - by rewrite app_nil_r.
  - rewrite IH. destruct (cv !! c); [by rewrite <- app_assoc|done].
Qed.

(** X12. The character ids of a word are the ids of its characters that
    are in the character vocabulary, in order; the others are dropped, so
    there are at most as many ids as characters, and exactly as many when
    every character is in the vocabulary. *)
Theorem chars_of_known (cv : gmap string Z) (word : string) :
  chars_of cv word = omap (fun char => cv !! char) (Py.chars word) ∧
  (length (chars_of cv word) ≤ String.length word)%nat ∧
  (Forall (fun char => is_Some (cv !! char)) (Py.chars word) →
   length (chars_of cv word) = String.length word).
Proof.
  assert (length (Py.chars word) = String.length word) as Hlen.
  { unfold Py.chars. rewrite length_fmap.
    induction word as [|c w IH]; [done|].
    cbn [list_ascii_of_string length String.length]. by rewrite IH. }
  unfold chars_of. rewrite chars_of_acc. cbn [app]. split; [done|].
  rewrite <- Hlen. clear Hlen. split.
  - induction (Py.chars word) as [|c cs IH]; [done|].
    cbn [omap list_omap length].
    destruct (cv !! c); cbn [length]; lia.
  - induction 1 as [|c cs [id Hid] _ IH]; [done|].
    cbn [omap list_omap length]. rewrite Hid. cbn [length]. by rewrite IH.
Qed.

(** X13. [fit] raises in two cases only, both for a processed word that is
    not in the word vocabulary: the exception [Unknown key is not
    allowed.] when the fallback is disabled, and [KeyError] when the
    fallback is enabled and the vocabulary does not hold [<UNK>].  With
    the fallback enabled and [<UNK>] in the vocabulary it never raises. *)
Theorem fit_errors (self : Processor) (word : string) :
  (∀ e, fit self word = Raise e →
        word_vocab self !! preprocess self word = None ∧
        (allow_unk self = false ∧ e = Exception "Unknown key is not allowed."
         ∨ allow_unk self = true ∧ word_vocab self !! UNK = None
           ∧ e = KeyError)) ∧
  (allow_unk self = true → is_Some (word_vocab self !! UNK) →
   ∃ id, fit self word = Ok (encoded self word id)).
Proof.
  split.
  - intros e. unfold fit, word_id.
    destruct (word_vocab self !! preprocess self word) as [id|];
      cbn [mbind result_bind]; [by destruct (with_chars self)|].
    destruct (allow_unk self).
    + destruct (word_vocab self !! UNK) as [unk|]; cbn [mbind result_bind];
        [by destruct (with_chars self)|].
      intros [= <-]. split; [done|]. by right.
    + cbn [mbind result_bind]. intros [= <-]. split; [done|]. by left.
  - intros Hallow [unk Hunk].
    destruct (word_vocab self !! preprocess self word) as [id|] eqn:Hid.
    + exists id. apply fit_word_id. unfold word_id. by rewrite Hid.
    + exists unk. apply fit_word_id. unfold word_id.
      by rewrite Hid, Hallow, Hunk.
Qed.

(** X14. Every numeric word is encoded as [<NUM>]: when the word, after
    the optional lowercasing, is classified as numeric and the vocabulary
    holds [<NUM>], [fit] returns the id of [<NUM>]. *)
Theorem fit_numeric (self : Processor) (word : string) (num : Z) :
  is_digit (if lowercase self then str_lower word else word) = true →
  word_vocab self !! NUM = Some num →
  fit self word = Ok (encoded self word num).
Proof.
  intros Hdigit Hnum. apply fit_word_id. unfold word_id, preprocess.
  by rewrite Hdigit, Hnum.
Qed.

(** X15. With lowercasing and without character ids, [fit] does not see
    the case of a word: two words with the same lowercase form are
    encoded alike. *)
Theorem fit_ignores_case (self : Processor) (word1 word2 : string) :
  lowercase self = true → with_chars self = None →
  str_lower word1 = str_lower word2 →
  fit self word1 = fit self word2.
Proof.
  intros Hlow Hchars Heq. unfold fit, preprocess.
  by rewrite Hchars, Hlow, Heq.
Qed.

End EncoderFacts.

Lemma is_digit_characterized_witness :
  is_digit "-12,5" = true ↔
  float_parses "-12,5" = true ∨ numeric_defined "-12,5" = true ∨
  signed_comma_number "-12,5" ∨
  ∃ s', "-12,5" = (s' ++ Re.newline)%string ∧ signed_comma_number s'.
Proof. apply (is_digit_characterized "-12,5"). Defined.

Lemma chars_of_known_witness :
  length (chars_of sample_chars "ab") = String.length "ab".
Proof.
  destruct (chars_of_known sample_chars "ab") as (_ & _ & Hall).
  apply Hall. change (Py.chars "ab") with ["a"; "b"].
  repeat (apply Forall_cons; split; [vm_compute; by eexists|]).
  apply Forall_nil_2.
Defined.

Lemma fit_errors_witness :
  ∃ id, fit (sample_processor true) "Zebra"
        = Ok (encoded (sample_processor true) "Zebra" id).
Proof.
  destruct (fit_errors (sample_processor true) "Zebra") as [_ Hok].
  apply Hok; [reflexivity|]. exists 1. by vm_compute.
Defined.

Lemma fit_numeric_witness :
  fit (sample_processor false) "1984"
  = Ok (encoded (sample_processor false) "1984" 2).
Proof.
  apply (fit_numeric (sample_processor false) "1984" 2);
    by vm_compute.
Defined.

Lemma fit_ignores_case_witness :
  fit (sample_processor true) "The" = fit (sample_processor true) "THE".
Proof.
  apply (fit_ignores_case (sample_processor true) "The" "THE"); reflexivity.
Defined.


(** ** Vocabulary files *)

Lemma vocab_loop_snoc d idx (f : list string) line :
  vocab_loop d idx (f ++ [line])
  = <[Py.strip line := Z.of_nat (idx + length f)]> (vocab_loop d idx f).
Proof.
  revert d idx. induction f as [|l f IH]; intros d idx; cbn [app vocab_loop].
  - by rewrite Nat.add_0_r.
  - rewrite IH. cbn [length]. do 2 f_equal. lia.
Qed.

Lemma vocab_loop_lookup (f : list string) (w : string) (i : Z) :
  vocab_loop ∅ 0 f !! w = Some i ↔
  ∃ n : nat, i = Z.of_nat n ∧ (Py.strip <$> f) !! n = Some w ∧
             ∀ n' : nat, (n < n')%nat → (Py.strip <$> f) !! n' ≠ Some w.
Proof.
  induction f as [|line f IH] using rev_ind.
  - cbn [vocab_loop]. rewrite lookup_empty. split; [done|].
    by intros (n & _ & Hn & _).
  - rewrite vocab_loop_snoc, fmap_app. cbn [fmap list_fmap Nat.add].
    assert (length (Py.strip <$> f) = length f) as Hlen by apply length_fmap.
    destruct (decide (Py.strip line = w)) as [Hw|Hw].
    + rewrite Hw, lookup_insert_eq. split.
      * intros [= <-]. exists (length f). split; [done|]. split.
        -- by rewrite <- Hlen, list_lookup_middle.
        -- intros n' Hn'. rewrite lookup_ge_None_2; [done|].
           rewrite length_app, Hlen. cbn [length]. lia.
      * intros (n & -> & Hn & Hlast).
        destruct (Nat.lt_ge_cases n (length f)) as [Hlt|Hge].
        -- exfalso. apply (Hlast (length f) Hlt).
           by rewrite <- Hlen, list_lookup_middle.
        -- apply lookup_lt_Some in Hn. rewrite length_app, Hlen in Hn.
           cbn [length] in Hn. do 2 f_equal. lia.
    + rewrite lookup_insert_ne by done. rewrite IH. split.
      * intros (n & -> & Hn & Hlast). exists n. split; [done|].
        pose proof (lookup_lt_Some _ _ _ Hn) as Hlt.
        split; [by rewrite lookup_app_l|].
        intros n' Hn'. destruct (Nat.lt_ge_cases n' (length f)) as [Hlt'|Hge].
        -- rewrite lookup_app_l by lia. by apply Hlast.
        -- destruct (Nat.eq_dec n' (length f)) as [->|Hne].
           ++ rewrite <- Hlen, list_lookup_middle by done. congruence.
           ++ rewrite lookup_ge_None_2; [done|].
              rewrite length_app, Hlen. cbn [length]. lia.
      * intros (n & -> & Hn & Hlast). exists n. split; [done|].
        destruct (Nat.lt_ge_cases n (length f)) as [Hlt|Hge].
        -- rewrite lookup_app_l in Hn by lia. split; [done|].
           intros n' Hn' Hcontra. apply (Hlast n' Hn').
           apply lookup_lt_Some in Hcontra as Hlt'.
           by rewrite lookup_app_l by lia.
        -- exfalso. rewrite lookup_app_r in Hn by lia.
           rewrite Hlen in Hn.
           destruct (n - length f)%nat; [|done]. cbn in Hn. congruence.
Qed.

(** X16. [load_vocab] gives every word the number of the last line that
    holds it, the lines being stripped and numbered from [0]; a word is in
    the vocabulary exactly when some line holds it.  When no two lines
    hold the same word, the id of the word of a line is the number of the
    line. *)
Theorem load_vocab_ids (f : list string) :
  ∃ d, load_vocab (Some f) = Ok d ∧
    (∀ w i, d !! w = Some i ↔
       ∃ n : nat, i = Z.of_nat n ∧ (Py.strip <$> f) !! n = Some w ∧
                  ∀ n' : nat, (n < n')%nat → (Py.strip <$> f) !! n' ≠ Some w) ∧
    (NoDup (Py.strip <$> f) →
     ∀ (n : nat) line, f !! n = Some line →
                       d !! Py.strip line = Some (Z.of_nat n)).
Proof.
  exists (vocab_loop ∅ 0 f). split; [done|].
  split; [apply vocab_loop_lookup|].
  intros Hnd n line Hline. apply vocab_loop_lookup. exists n.
  assert ((Py.strip <$> f) !! n = Some (Py.strip line)) as Hn
    by (by rewrite list_lookup_fmap, Hline).
  split; [done|]. split; [done|].
  intros n' Hn' Hcontra.
  pose proof (NoDup_lookup _ _ _ _ Hnd Hn Hcontra). lia.
Qed.

Lemma load_vocab_ids_witness :
  vocab_loop ∅ 0
    ["<PAD>" ++ Re.newline; "<UNK>" ++ Re.newline; "the" ++ Re.newline]%string
    !! Py.strip ("the" ++ Re.newline)%string = Some (Z.of_nat 2).
Proof.
  destruct (load_vocab_ids
    ["<PAD>" ++ Re.newline; "<UNK>" ++ Re.newline; "the" ++ Re.newline]%string)
    as (d & [= <-] & _ & Hdistinct).
  apply Hdistinct; [|reflexivity]. apply (bool_decide_unpack _). by vm_compute.
Defined.

(** ** Further properties of the batch assembler *)

Lemma mapM_iter_pairs (pairs : list (list Z * Z)) :
  mapM iter_token ((fun q => Tuple q.1 q.2) <$> pairs)
  = Ok ((fun q => [IList q.1; IInt q.2]) <$> pairs).
Proof.
  induction pairs as [|q pairs IH]; [done|].
  rewrite !fmap_cons. cbn [mapM iter_token]. cbn [mbind result_bind].
  by rewrite IH.
Qed.

Lemma mapM_head_pairs {X} (f g : X → item) (l : list X) :
  mapM head ((fun q => [f q; g q]) <$> l) = Some (f <$> l) ∧
  mapM head ((fun q => [g q]) <$> l) = Some (g <$> l) ∧
  (l ≠ [] → mapM head ((fun q => @nil item) <$> l) = None).
Proof.
  induction l as [|q l (IH1 & IH2 & IH3)]; [done|].
  rewrite !fmap_cons. cbn [mapM head]. rewrite IH1, IH2. done.
Qed.

(** X17. A sentence of pairs (character ids, word id) is transposed: its
    entry in the batch holds the sequence of the character id lists and
    the sequence of the word ids.  A sentence that does not start with a
    pair is left as it is. *)
Theorem reshape_transposes (x : list token) (pairs : list (list Z * Z)) :
  (pairs ≠ [] →
   reshape ((fun q => Tuple q.1 q.2) <$> pairs)
   = Ok (Zipped [(fun q => IList q.1) <$> pairs;
                 (fun q => IInt q.2) <$> pairs])) ∧
  (∀ t x', x = t :: x' → is_tuple t = false → reshape x = Ok (Plain x)).
Proof.
  split.
  - intros Hne. destruct pairs as [|q pairs]; [done|].
    unfold reshape. rewrite fmap_cons, index_first.
    cbn [mbind result_bind is_tuple]. unfold zip_star.
    change (Tuple q.1 q.2 :: ((fun q => Tuple q.1 q.2) <$> pairs))
      with ((fun q => Tuple q.1 q.2) <$> (q :: pairs)).
    rewrite mapM_iter_pairs. cbn [mbind result_bind].
    set (l := q :: pairs).
    assert (head ((fun q => [IList q.1; IInt q.2]) <$> l)
            = Some [IList q.1; IInt q.2]) as -> by done.
    cbn [default id length zip_rows].
    destruct (mapM_head_pairs (fun q => IList q.1) (fun q => IInt q.2) l)
      as (H1 & H2 & _).
    rewrite H1, <- list_fmap_compose.
    change (tail ∘ _) with (fun q : list Z * Z => [IInt q.2]).
    by rewrite H2.
  - intros t x' -> Ht. unfold reshape. rewrite index_first.
    cbn [mbind result_bind]. by rewrite Ht.
Qed.

Lemma reshape_transposes_witness :
  reshape ((fun q => Tuple q.1 q.2) <$> [([1; 2], 7); ([3], 8)])
  = Ok (Zipped [(fun q => IList q.1) <$> [([1; 2], 7); ([3], 8)];
                (fun q => IInt q.2) <$> [([1; 2], 7); ([3], 8)]]).
Proof.
  destruct (reshape_transposes [] [([1; 2], 7); ([3], 8)]) as [Hzip _].
  apply Hzip. discriminate.
Defined.

Lemma batch_loop_fail {Y} (B : Z) (pre rest : list (list token * Y))
    (x : list token) (y : Y) (e : exn) :
  1 ≤ B → Forall (fun q => ∃ r, reshape q.1 = Ok r) pre →
  reshape x = Raise e →
  ∀ batch_x batch_y,
    length batch_x = length batch_y → Py.len batch_x ≤ B →
    ∃ batches entries lost,
      batch_loop B batch_x batch_y (pre ++ (x, y) :: rest)
        = (batches, Some e) ∧
      mapM reshape (fst <$> pre) = Ok entries ∧
      batch_x ++ entries = concat (fst <$> batches) ++ lost ∧
      Py.len lost < B ∧
      Forall (fun b : batch => Py.len b.1 = B ∧ Py.len b.2 = B) batches.
Proof.
  intros HB Hpre Hx. induction Hpre as [|[x0 y0] pre Hx0 _ IH];
    intros bx by_ Hlen Hle.
  - cbn [app batch_loop fmap list_fmap mapM]. rewrite Hx.
    destruct (Z.eqb_spec (Py.len bx) B) as [Hfull|Hpart].
    + exists [(bx, by_)], [], []. cbn [fmap list_fmap concat fst snd].
      rewrite !app_nil_r. repeat split; try done.
      * unfold Py.len in *. cbn [length]. lia.
      * constructor; [|done]. cbn [fst snd]. unfold Py.len in *. lia.
    + exists [], [], bx. rewrite app_nil_r. repeat split; try done. lia.
  - cbn [app batch_loop fst]. destruct Hx0 as [e0 He0]. cbn [fst] in He0.
    rewrite fmap_cons. cbn [mapM fst]. rewrite He0. cbn [mbind result_bind].
    destruct (Z.eqb_spec (Py.len bx) B) as [Hfull|Hpart].
    + change ([] ++ [e0]) with [e0]. change ([] ++ [y0]) with [y0].
      destruct (IH [e0] [y0]) as
        (batches & entries & lost & -> & -> & Hcat & Hlost & Hall);
        [done|unfold Py.len; cbn [length]; lia|].
      exists ((bx, by_) :: batches), (e0 :: entries), lost.
      cbn [mbind result_bind]. split; [done|]. split; [done|].
      rewrite fmap_cons. cbn [concat fst]. rewrite <- app_assoc, <- Hcat.
      repeat split; try done. constructor; [|done].
      cbn [fst snd]. unfold Py.len in *. lia.
    + destruct (IH (bx ++ [e0]) (by_ ++ [y0])) as
        (batches & entries & lost & -> & -> & Hcat & Hlost & Hall).
      { rewrite !length_app. cbn [length]. lia. }
      { unfold Py.len in *. rewrite length_app. cbn [length]. lia. }
      exists batches, (e0 :: entries), lost.
      cbn [mbind result_bind]. split; [done|]. split; [done|].
      rewrite <- Hcat, <- app_assoc. done.
Qed.

(** X18. When the sentence at position [len(pre)] is the first that
    [batch_iter] cannot reshape (every sentence before it is reshaped, and
    reshaping it raises: it is empty, or its [zip] raises), the generator
    stops there with the exception, after yielding [floor(len(pre) / B)]
    batches of [B] elements each: the batches that the sentences before
    it fill.  Fewer than [B] sentences, those of the batch under
    construction, are lost. *)
Theorem batch_iter_stops_at_bad_sentence {Y} (B : Z)
    (pre rest : list (list token * Y)) (x : list token) (y : Y) (e : exn) :
  1 ≤ B → Forall (fun q => ∃ r, reshape q.1 = Ok r) pre →
  reshape x = Raise e →
  ∃ (batches : list (@batch Y)) entries lost,
    batch_iter (pre ++ (x, y) :: rest) B = (batches, Some e) ∧
    mapM reshape (fst <$> pre) = Ok entries ∧
    entries = concat (fst <$> batches) ++ lost ∧
    Py.len lost < B ∧
    Forall (fun b : batch => Py.len b.1 = B ∧ Py.len b.2 = B) batches ∧
    Py.len batches = Py.len pre / B.
Proof.
  intros HB Hpre Hx.
  destruct (batch_loop_fail B pre rest x y e HB Hpre Hx [] [])
    as (batches & entries & lost & Hrun & Hent & Hcat & Hlost & Hall);
    [done|unfold Py.len; cbn [length]; lia|].
  exists batches, entries, lost. cbn [app] in Hcat.
  repeat (split; [done|]).
  assert (Py.len (concat (fst <$> batches)) = B * Py.len batches) as Hfull.
  { clear -Hall. unfold Py.len in *.
    induction Hall as [|b bs [Hb _] _ IH]; [cbn [fmap list_fmap concat length]; lia|].
    rewrite fmap_cons. cbn [concat]. rewrite length_app. cbn [length]. lia. }
  apply mapM_result_length in Hent. rewrite length_fmap in Hent.
  unfold Py.len, batch in *. rewrite <- Hent, Hcat, length_app.
  apply (Z.div_unique_pos _ _ _ (Z.of_nat (length lost))); lia.
Qed.

Lemma batch_iter_stops_at_bad_sentence_witness :
  ∃ (batches : list (@batch (list Z))) entries lost,
    batch_iter ([([Int 1], [7]); ([Int 2], [8]); ([Int 3], [9])]
                ++ ([], []) :: [([Int 4], [6])]) 2
      = (batches, Some IndexError) ∧
    mapM reshape (fst <$> [([Int 1], [7]); ([Int 2], [8]); ([Int 3], [9])])
      = Ok entries ∧
    entries = concat (fst <$> batches) ++ lost ∧
    Py.len lost < 2 ∧
    Forall (fun b : batch => Py.len b.1 = 2 ∧ Py.len b.2 = 2) batches ∧
    Py.len batches
    = Py.len [([Int 1], [7]); ([Int 2], [8]); ([Int 3], [9])] / 2.
Proof.
  apply (batch_iter_stops_at_bad_sentence 2
           [([Int 1], [7]); ([Int 2], [8]); ([Int 3], [9])]
           [([Int 4], [6])] [] [] IndexError).
  - lia.
  - repeat (apply Forall_cons; split; [by eexists|]). apply Forall_nil_2.
  - reflexivity.
Defined.

Lemma batch_loop_oversize {Y} (B : Z) (dataset : list (list token * Y)) :
  Forall (fun q => uniform q.1) dataset →
  ∀ batch_x batch_y, B < Py.len batch_x →
    ∃ entries,
      mapM reshape (fst <$> dataset) = Ok entries ∧
      batch_loop B batch_x batch_y dataset
      = (if negb (Py.len (batch_x ++ entries) =? 0)
         then [(batch_x ++ entries, batch_y ++ (snd <$> dataset))] else [],
         None).
Proof.
  induction 1 as [|[x y] dataset Hx _ IH]; intros bx by_ Hlt.
  - exists []. split; [done|]. cbn [batch_loop fmap list_fmap].
    by rewrite !app_nil_r.
  - destruct (reshape_uniform x Hx) as [e He].
    destruct (IH (bx ++ [e]) (by_ ++ [y])) as (entries & Hent & Hrun).
    { unfold Py.len in *. rewrite length_app. cbn [length]. lia. }
    exists (e :: entries). rewrite !fmap_cons. cbn [mapM fst snd batch_loop].
    rewrite He, Hent. cbn [mbind result_bind]. split; [done|].
    assert ((Py.len bx =? B) = false) as -> by (apply Z.eqb_neq; lia).
    rewrite Hrun, <- !app_assoc. done.
Qed.

(** X19. A batch size below [1] does not batch.  With a negative size the
    generator yields all the sentences in one batch; with size [0] it
    first yields an empty batch, then all the sentences in one batch. *)
Theorem batch_iter_nonpositive_size {Y} (dataset : list (list token * Y))
    (B : Z) :
  dataset ≠ [] → Forall (fun q => uniform q.1) dataset →
  ∃ entries,
    mapM reshape (fst <$> dataset) = Ok entries ∧
    (B < 0 → batch_iter dataset B = ([(entries, snd <$> dataset)], None)) ∧
    batch_iter dataset 0 = ([([], []); (entries, snd <$> dataset)], None).
Proof.
  intros Hne Hall. destruct dataset as [|[x y] dataset]; [done|].
  apply Forall_cons in Hall as [Hx Hall]. cbn [fst] in Hx.
  destruct (reshape_uniform x Hx) as [e He].
  destruct (batch_loop_oversize 0 dataset Hall [e] [y])
    as (entries & Hent & Hzero); [unfold Py.len; cbn [length]; lia|].
  exists (e :: entries). rewrite !fmap_cons. cbn [mapM fst snd].
  rewrite He, Hent. cbn [mbind result_bind]. split; [done|]. split.
  - intros HB. unfold batch_iter.
    assert (Forall (fun q : list token * Y => uniform q.1) ((x, y) :: dataset))
      as Hall' by (by constructor).
    destruct (batch_loop_oversize B ((x, y) :: dataset) Hall' [] [])
      as (entries' & Hent' & ->); [unfold Py.len; cbn [length]; lia|].
    rewrite fmap_cons in Hent'. cbn [mapM fst] in Hent'.
    rewrite He, Hent in Hent'. cbn [mbind result_bind] in Hent'.
    injection Hent' as <-. done.
  - unfold batch_iter. cbn [batch_loop]. rewrite He.
    change (Py.len [] =? 0) with true. cbn iota. change ([] ++ [e]) with [e].
    change ([] ++ [y]) with [y]. rewrite Hzero. done.
Qed.

Lemma batch_iter_nonpositive_size_witness :
  ∃ entries,
    mapM reshape (fst <$> [([Int 1], [7]); ([Int 2], [8])]) = Ok entries ∧
    (-1 < 0 → batch_iter [([Int 1], [7]); ([Int 2], [8])] (-1)
              = ([(entries, snd <$> [([Int 1], [7]); ([Int 2], [8])])], None)) ∧
    batch_iter [([Int 1], [7]); ([Int 2], [8])] 0
    = ([([], []); (entries, snd <$> [([Int 1], [7]); ([Int 2], [8])])], None).
Proof.
  apply (batch_iter_nonpositive_size [([Int 1], [7]); ([Int 2], [8])] (-1)).
  - discriminate.
  - repeat constructor; eexists _, _; (split; [reflexivity|]);
      repeat constructor.
Defined.


(** ** Further properties of the corpus iteration *)

Section CorpusMore.
Context `{PyText}.

Lemma fit_shaped (p : Processor) (word : string) (t : token) :
  fit p word = Ok t → shaped (Some p) t.
Proof.
  unfold fit, shaped.
  destruct (word_id p (preprocess p word)) as [id|e]; cbn [mbind result_bind];
    [|done].
  destruct (with_chars p); intros [= <-]; eauto.
Qed.

Lemma read_token_shaped (self : Dataset) (line : string) (word tag : token) :
  read_token self line = Ok (word, tag) →
  shaped (word_processor self) word ∧ shaped (tag_processor self) tag.
Proof.
  unfold read_token.
  destruct (Py.split line (delimiter self)) as [ls|e]; cbn [mbind result_bind];
    [|done].
  destruct (Py.index ls 0) as [w|e]; cbn [mbind result_bind]; [|done].
  destruct (Py.index ls (tag_idx self)) as [t|e]; cbn [mbind result_bind];
    [|done].
  destruct (word_processor self) as [p|].
  - destruct (fit p w) as [w'|e] eqn:Hw; cbn [mbind result_bind]; [|done].
    destruct (tag_processor self) as [q|].
    + destruct (fit q t) as [t'|e] eqn:Ht; cbn [mbind result_bind]; [|done].
      intros [= <- <-]. split; by eapply fit_shaped.
    + cbn [mbind result_bind]. intros [= <- <-].
      split; [by eapply fit_shaped|]. by eexists.
  - cbn [mbind result_bind]. destruct (tag_processor self) as [q|].
    + destruct (fit q t) as [t'|e] eqn:Ht; cbn [mbind result_bind]; [|done].
      intros [= <- <-]. split; [by eexists|]. by eapply fit_shaped.
    + cbn [mbind result_bind]. intros [= <- <-]. split; by eexists.
Qed.

Lemma shaped_uniform (p : option Processor) (x : list token) :
  x ≠ [] → Forall (shaped p) x → uniform x.
Proof.
  destruct x as [|t x]; [done|]. intros _ [Ht Hx]%Forall_cons.
  exists t, x. split; [done|]. eapply Forall_impl; [exact Hx|].
  intros t' Ht'. unfold shaped in *. destruct p as [p|].
  - destruct (with_chars p).
    + by destruct Ht as (? & ? & ->), Ht' as (? & ? & ->).
    + by destruct Ht as (? & ->), Ht' as (? & ->).
  - by destruct Ht as (? & ->), Ht' as (? & ->).
Qed.

Lemma iter_loop_sentences (self : Dataset) (f : list string) :
  ∀ niter words tags,
    length words = length tags →
    Forall (shaped (word_processor self)) words →
    Forall (shaped (tag_processor self)) tags →
    Forall (fun s : list token * list token =>
              s.1 ≠ [] ∧ length s.1 = length s.2 ∧
              Forall (shaped (word_processor self)) s.1 ∧
              Forall (shaped (tag_processor self)) s.2)
           (iter_loop self niter words tags f).1.
Proof.
  induction f as [|line f IH]; intros niter words tags Hlen Hw Ht;
    [by constructor|].
  cbn [iter_loop]. destruct (is_boundary (Py.strip line)).
  - destruct (Z.eqb_spec (Py.len words) 0) as [Hz|Hnz]; cbn [negb];
      [by apply IH|].
    destruct (match max_iter self with
              | Some m => m <? niter + 1
              | None => false
              end); [by constructor|].
    specialize (IH (niter + 1) [] [] eq_refl (Forall_nil_2 _) (Forall_nil_2 _)).
    destruct (iter_loop self (niter + 1) [] [] f) as [more stop].
    cbn [fst] in *. constructor; [|done]. cbn [fst snd].
    split; [|done]. intros ->. by apply Hnz.
  - destruct (read_token self (Py.strip line)) as [[word tag]|e] eqn:Hread;
      [|by constructor].
    apply read_token_shaped in Hread as [Hword Htag].
    apply IH.
    + rewrite !length_app. cbn [length]. lia.
    + apply Forall_app. by repeat constructor.
    + apply Forall_app. by repeat constructor.
Qed.

(** X20. Every sentence that the corpus iteration yields is well formed:
    it is not empty, it has as many tags as words, and its words, like its
    tags, have the one shape that the column's processor gives them; so
    it is a sentence that [batch_iter] can reshape. *)
Theorem Dataset_iter_sentences (self : Dataset) (f : list string) :
  Forall (fun s : list token * list token =>
            s.1 ≠ [] ∧ length s.1 = length s.2 ∧
            Forall (shaped (word_processor self)) s.1 ∧
            Forall (shaped (tag_processor self)) s.2 ∧
            uniform s.1)
         (Dataset_iter self f).1.
Proof.
  eapply Forall_impl; [by apply (iter_loop_sentences self f 0 [] [])|].
  intros s (? & ? & ? & ?). repeat (split; [done|]). by eapply shaped_uniform.
Qed.

Lemma full_then_last_bounds {X} n (bs : list (list X)) :
  1 ≤ n → full_then_last n bs →
  Forall (fun b => 1 ≤ Py.len b ∧ Py.len b ≤ n) bs.
Proof.
  intros Hn. induction bs as [|b bs IH]; [by constructor|].
  cbn [full_then_last]. destruct bs as [|b' bs].
  - intros ?. constructor; [done|constructor].
  - intros [Hb Hfull]. constructor; [lia|by apply IH].
Qed.

(** X21. The two stages compose: when the corpus iteration ends without
    an exception, [batch_iter] with a batch size [B >= 1] over the
    sentences it yields never raises; it yields batches of [1] to [B]
    sentences that hold the tag sequences of the sentences in order. *)
Theorem batch_iter_over_dataset (self : Dataset) (f : list string) (B : Z) :
  1 ≤ B → (Dataset_iter self f).2 = None →
  ∃ batches : list (@batch (list token)),
    batch_iter (Dataset_iter self f).1 B = (batches, None) ∧
    concat (snd <$> batches) = snd <$> (Dataset_iter self f).1 ∧
    Forall (fun b : batch => 1 ≤ Py.len b.1 ∧ Py.len b.1 ≤ B ∧
                             length b.1 = length b.2) batches.
Proof.
  intros HB _.
  assert (Forall (fun q : list token * list token => uniform q.1)
                 (Dataset_iter self f).1) as Hall.
  { eapply Forall_impl; [by apply (iter_loop_sentences self f 0 [] [])|].
    intros s (? & _ & ? & _). by eapply shaped_uniform. }
  destruct (batch_loop_spec B _ HB Hall [] [])
    as (batches & entries & Hrun & _ & _ & Hcy & Hftl & Hlen);
    [done|unfold Py.len; cbn [length]; lia|].
  exists batches. split; [done|]. split; [done|].
  apply full_then_last_bounds in Hftl; [|done].
  rewrite Forall_fmap in Hftl. rewrite Forall_forall in Hftl, Hlen.
  apply Forall_forall. intros b Hb. specialize (Hftl b Hb). cbn in Hftl.
  split; [lia|]. split; [lia|]. by apply Hlen.
Qed.

Lemma iter_loop_limit (self : Dataset) (m : Z) (f : list string) :
  ∀ niter niter' words tags,
    (iter_loop (with_max_iter self (Some m)) niter words tags f).1
    = take (Z.to_nat (m - niter))
           (iter_loop (with_max_iter self None) niter' words tags f).1.
Proof.
  induction f as [|line f IH]; intros niter niter' words tags;
    [cbn [iter_loop fst]; by rewrite take_nil|].
  cbn [iter_loop max_iter with_max_iter].
  change (read_token (with_max_iter self (Some m)))
    with (read_token (with_max_iter self None)).
  destruct (is_boundary (Py.strip line)).
  - destruct (negb (Py.len words =? 0)); [|apply IH].
    specialize (IH (niter + 1) (niter' + 1) [] []).
    destruct (iter_loop (with_max_iter self None) (niter' + 1) [] [] f)
      as [more' stop'].
    destruct (Z.ltb_spec m (niter + 1)) as [Hlt|Hge].
    + cbn [fst]. by replace (Z.to_nat (m - niter)) with 0%nat by lia.
    + destruct (iter_loop (with_max_iter self (Some m)) (niter + 1) [] [] f)
        as [more stop].
      cbn [fst] in *.
      replace (Z.to_nat (m - niter)) with (S (Z.to_nat (m - (niter + 1))))
        by lia.
      cbn [take]. by rewrite IH.
  - destruct (read_token (with_max_iter self None) (Py.strip line))
      as [[word tag]|e]; [apply IH|cbn [fst]; by rewrite take_nil].
Qed.

(** X22. A limit [max_iter = m] cuts the iteration short and changes
    nothing else: the sentences yielded are the first [m] of those
    yielded without a limit (none when [m <= 0]). *)
Theorem Dataset_iter_max_iter (self : Dataset) (m : Z) (f : list string) :
  (Dataset_iter (with_max_iter self (Some m)) f).1
  = take (Z.to_nat m) (Dataset_iter (with_max_iter self None) f).1.
Proof.
  unfold Dataset_iter. rewrite (iter_loop_limit self m f 0 0).
  by rewrite Z.sub_0_r.
Qed.

Lemma iter_loop_bad_line (self : Dataset) (line : string) (e : exn)
    (rest : list string) :
  max_iter self = None →
  is_boundary (Py.strip line) = false →
  read_token self (Py.strip line) = Raise e →
  ∀ pre,
    Forall (fun l => is_boundary (Py.strip l) = true ∨
                     ∃ wt, read_token self (Py.strip l) = Ok wt) pre →
    ∀ niter words tags,
      iter_loop self niter words tags (pre ++ line :: rest)
      = ((iter_loop self niter words tags pre).1, Some e).
Proof.
  intros Hmax Hline Hread pre Hpre.
  induction Hpre as [|l pre Hl _ IH]; intros niter words tags.
  - cbn [app iter_loop fst]. by rewrite Hline, Hread.
  - cbn [app iter_loop]. rewrite Hmax.
    destruct (is_boundary (Py.strip l)) eqn:Hb.
    + destruct (negb (Py.len words =? 0)); [|apply IH].
      rewrite IH. by destruct (iter_loop self (niter + 1) [] [] pre).
    + destruct Hl as [?|[[word tag] Hwt]]; [done|]. rewrite Hwt. apply IH.
Qed.

(** X23. Without a limit, a line that cannot be read (a missing column, a
    word that [fit] refuses) stops the iteration with its exception: the
    sentences completed before the line are yielded, the words read since
    the last boundary are lost, and the rest of the file is not read. *)
Theorem Dataset_iter_bad_line (self : Dataset) (pre rest : list string)
    (line : string) (e : exn) :
  max_iter self = None →
  Forall (fun l => is_boundary (Py.strip l) = true ∨
                   ∃ wt, read_token self (Py.strip l) = Ok wt) pre →
  is_boundary (Py.strip line) = false →
  read_token self (Py.strip line) = Raise e →
  Dataset_iter self (pre ++ line :: rest)
  = ((Dataset_iter self pre).1, Some e).
Proof.
  intros Hmax Hpre Hline Hread. unfold Dataset_iter.
  by apply iter_loop_bad_line.
Qed.

(** X24. [__len__] counts once.  The first call returns the number of
    sentences of the file, or raises what the iteration raises; in both
    cases it leaves in [self.length] the number of sentences yielded.  A
    later call returns that number without reading the file, also after a
    first call that raised. *)
Theorem Dataset_len_cached (self : Dataset) (f f' : list string) :
  (Dataset_len self None f).2 = Some (Py.len (Dataset_iter self f).1) ∧
  ((Dataset_iter self f).2 = None →
   (Dataset_len self None f).1 = Ok (Py.len (Dataset_iter self f).1)) ∧
  (∀ e, (Dataset_iter self f).2 = Some e →
        (Dataset_len self None f).1 = Raise e) ∧
  Dataset_len self (Dataset_len self None f).2 f'
  = (Ok (Py.len (Dataset_iter self f).1),
     Some (Py.len (Dataset_iter self f).1)).
Proof.
  unfold Dataset_len. destruct (Dataset_iter self f) as [sentences [e|]];
    cbn [fst snd]; repeat split; try done. by intros e' [= <-].
Qed.

End CorpusMore.

Lemma batch_iter_over_dataset_witness :
  ∃ batches : list (@batch (list token)),
    batch_iter (Dataset_iter sample_dataset
                  ["EU B-ORG" ++ Re.newline; Re.newline]%string).1 2
      = (batches, None) ∧
    concat (snd <$> batches)
      = snd <$> (Dataset_iter sample_dataset
                   ["EU B-ORG" ++ Re.newline; Re.newline]%string).1 ∧
    Forall (fun b : batch => 1 ≤ Py.len b.1 ∧ Py.len b.1 ≤ 2 ∧
                             length b.1 = length b.2) batches.
Proof.
  apply (batch_iter_over_dataset sample_dataset
           ["EU B-ORG" ++ Re.newline; Re.newline]%string 2).
  - lia.
  - reflexivity.
Defined.

Lemma Dataset_iter_bad_line_witness :
  Dataset_iter sample_dataset
    (["EU B-ORG" ++ Re.newline; Re.newline; "German B-MISC" ++ Re.newline]%string
     ++ ("call" ++ Re.newline)%string :: ["to O" ++ Re.newline; Re.newline]%string)
  = ((Dataset_iter sample_dataset
        ["EU B-ORG" ++ Re.newline; Re.newline;
         "German B-MISC" ++ Re.newline]%string).1,
     Some IndexError).
Proof.
  apply (Dataset_iter_bad_line sample_dataset).
  - reflexivity.
  - apply Forall_cons; split; [right; by eexists|].
    apply Forall_cons; split; [by left|].
    apply Forall_cons; split; [right; by eexists|].
    apply Forall_nil_2.
  - reflexivity.
  - reflexivity.
Defined.

Lemma Dataset_len_cached_witness :
  Dataset_len sample_dataset
    (Dataset_len sample_dataset None
       ["EU B-ORG" ++ Re.newline; Re.newline; "call" ++ Re.newline]%string).2
    []
  = (Ok 1, Some 1) ∧
  (Dataset_len sample_dataset None
     ["EU B-ORG" ++ Re.newline; Re.newline; "call" ++ Re.newline]%string).1
  = Raise IndexError.
Proof.
  destruct (Dataset_len_cached sample_dataset
              ["EU B-ORG" ++ Re.newline; Re.newline; "call" ++ Re.newline]%string
              []) as (_ & _ & Hraise & Hagain).
  split; [exact Hagain|]. apply Hraise. reflexivity.
Defined.


(** *** Reading back a written corpus *)

Lemma rstrip_no_space_app (a rest : string) :
  no_space a = true → Py.rstrip (a ++ rest)%string = (a ++ Py.rstrip rest)%string.
Proof.
  induction a as [|c a IH]; [done|]. cbn [no_space].
  intros [Hc Ha]%andb_true_iff. apply negb_true_iff in Hc.
  rewrite !append_cons. cbn [Py.rstrip]. rewrite (IH Ha), Hc.
  by destruct (a ++ Py.rstrip rest)%string.
Qed.

Lemma strip_token_line (word tag : string) :
  word ≠ "" → no_space word = true → tag ≠ "" → no_space tag = true →
  Py.strip (token_line word tag) = (word ++ " " ++ tag)%string.
Proof.
  intros Hw Hws Ht Hts. unfold Py.strip, token_line.
  assert (Py.lstrip (word ++ " " ++ tag ++ Re.newline)%string
          = (word ++ " " ++ tag ++ Re.newline)%string) as ->.
  { destruct word as [|c word]; [done|]. cbn [no_space] in Hws.
    apply andb_true_iff in Hws as [Hc _]. apply negb_true_iff in Hc.
    rewrite append_cons. cbn [Py.lstrip]. by rewrite Hc. }
  rewrite rstrip_no_space_app by done. f_equal.
  change (" " ++ ?x)%string with (String " " x). cbn [Py.rstrip].
  rewrite rstrip_no_space_app by done.
  change (Py.rstrip Re.newline) with "". rewrite append_nil_r.
  by destruct tag.
Qed.

Lemma prefix_no_space (p word rest : string) :
  no_space p = true → String.prefix p word = false →
  String.prefix p (word ++ " " ++ rest)%string = false.
Proof.
  revert p. induction word as [|b word IH]; intros p Hp Hpre.
  - destruct p as [|a p]; [done|]. cbn [no_space] in Hp.
    apply andb_true_iff in Hp as [Ha _].
    change ("" ++ " " ++ rest)%string with (String " " rest).
    cbn [String.prefix]. by destruct (ascii_dec a " ") as [->|_].
  - destruct p as [|a p]; [done|]. cbn [no_space] in Hp.
    apply andb_true_iff in Hp as [_ Hp].
    rewrite append_cons. cbn [String.prefix] in *.
    destruct (ascii_dec a b); [by apply IH|done].
Qed.

Lemma is_boundary_token (word tag : string) :
  word ≠ "" → String.prefix "-DOCSTART-" word = false →
  is_boundary (word ++ " " ++ tag)%string = false.
Proof.
  intros Hw Hdoc. unfold is_boundary, Py.startswith.
  rewrite prefix_no_space by done. by destruct word.
Qed.

Lemma split_space_cons c s :
  Py.split_go " " 0 (String c s)
  = if Ascii.eqb c " " then "" :: Py.split_go " " 0 s
    else match Py.split_go " " 0 s with
         | w :: ws => String c w :: ws
         | [] => [String c ""]
         end.
Proof.
  cbn [Py.split_go String.prefix String.length Nat.sub].
  destruct (Ascii.eqb_spec c " ") as [->|Hc].
  - destruct (ascii_dec " " " ") as [_|?]; [|done].
    by assert (String.prefix "" s = true) as -> by (by destruct s).
  - by destruct (ascii_dec " " c) as [<-|_].
Qed.

Lemma no_space_not_blank c : Py.isspace c = false → Ascii.eqb c " " = false.
Proof. destruct (Ascii.eqb_spec c " ") as [->|_]; [done|done]. Qed.

Lemma split_space_plain (t : string) :
  no_space t = true → Py.split_go " " 0 t = [t].
Proof.
  induction t as [|c t IH]; [done|]. cbn [no_space].
  intros [Hc Ht]%andb_true_iff. apply negb_true_iff in Hc.
  by rewrite split_space_cons, (no_space_not_blank c Hc), IH.
Qed.

Lemma split_space_pair (word tag : string) :
  no_space word = true → no_space tag = true →
  Py.split_go " " 0 (word ++ " " ++ tag)%string = [word; tag].
Proof.
  intros Hw Ht. induction word as [|c word IH].
  - change ("" ++ " " ++ tag)%string with (String " " tag).
    by rewrite split_space_cons, split_space_plain.
  - cbn [no_space] in Hw. apply andb_true_iff in Hw as [Hc Hw].
    apply negb_true_iff in Hc.
    by rewrite append_cons, split_space_cons, (no_space_not_blank c Hc), IH.
Qed.

Section ReadBack.
Context `{PyText}.
Variable self : Dataset.
Hypothesis Hword : word_processor self = None.
Hypothesis Htag : tag_processor self = None.
Hypothesis Hdelimiter : delimiter self = " ".
Hypothesis Hidx : tag_idx self = 1.
Hypothesis Hmax : max_iter self = None.

Lemma read_token_written (q : string * string) :
  writable q →
  read_token self (q.1 ++ " " ++ q.2)%string = Ok (Str q.1, Str q.2).
Proof.
  intros (_ & Hw & _ & Ht & _). unfold read_token, Py.split.
  rewrite Hdelimiter, Hidx, Hword, Htag. cbn [String.eqb].
  by rewrite split_space_pair.
Qed.

Lemma iter_loop_written_tokens (sentence : list (string * string))
    (rest : list string) :
  Forall writable sentence →
  ∀ niter words tags,
    iter_loop self niter words tags
      (((fun q => token_line q.1 q.2) <$> sentence) ++ rest)
    = iter_loop self niter (words ++ (Str <$> sentence.*1))
                (tags ++ (Str <$> sentence.*2)) rest.
Proof.
  induction 1 as [|q sentence Hq _ IH]; intros niter words tags.
  - cbn [fmap list_fmap app]. by rewrite !app_nil_r.
  - rewrite !fmap_cons. cbn [app iter_loop].
    pose proof Hq as (Hw & Hws & Ht & Hts & Hdoc).
    rewrite strip_token_line, is_boundary_token, read_token_written by done.
    rewrite IH, <- !app_assoc. done.
Qed.

(** X25. A corpus written from sentences is read back as it was.  Take
    non-empty sentences of (word, tag) pairs in which words and tags are
    not empty and hold no whitespace and no word starts with
    [-DOCSTART-], written one token per line as [word tag], with an empty
    line after every sentence.  A dataset without processors, with the
    delimiter [" "], the tag in column [1] and no limit yields exactly
    these sentences, the words and the tags as strings, and ends without
    an exception. *)
Theorem Dataset_iter_reads_back (sentences : list (list (string * string))) :
  Forall (fun sentence => sentence ≠ [] ∧ Forall writable sentence) sentences →
  Dataset_iter self (format_corpus sentences)
  = ((fun sentence => (Str <$> sentence.*1, Str <$> sentence.*2))
       <$> sentences, None).
Proof.
  intros Hall. unfold Dataset_iter, format_corpus. generalize 0.
  induction Hall as [|sentence sentences [Hne Hs] _ IH]; intros niter; [done|].
  rewrite !fmap_cons. cbn [concat]. unfold format_sentence at 1.
  rewrite <- app_assoc, iter_loop_written_tokens by done.
  cbn [app iter_loop]. change (Py.strip Re.newline) with "".
  change (is_boundary "") with true. cbn iota. rewrite Hmax.
  assert ((Py.len (Str <$> sentence.*1) =? 0) = false) as ->.
  { apply Z.eqb_neq. unfold Py.len. rewrite !length_fmap.
    destruct sentence; [done|]. cbn [length]. lia. }
  cbn [negb]. by rewrite IH.
Qed.

End ReadBack.

Lemma Dataset_iter_reads_back_witness :
  Dataset_iter sample_dataset
    (format_corpus [[("EU", "B-ORG"); ("rejects", "O")]; [("Peter", "B-PER")]])
  = ((fun sentence => (Str <$> sentence.*1, Str <$> sentence.*2))
       <$> [[("EU", "B-ORG"); ("rejects", "O")]; [("Peter", "B-PER")]], None).
Proof.
  apply (Dataset_iter_reads_back sample_dataset);
    try reflexivity.
  repeat (apply Forall_cons; split;
          [split; [discriminate|];
           repeat (apply Forall_cons; split;
                   [repeat split; discriminate || reflexivity|]);
           apply Forall_nil_2|]).
  apply Forall_nil_2.
Defined.

(** ** Building a processor from vocabulary files *)

(** X26. A processor built from a word vocabulary file whose lines hold
    distinct words, without lowercasing and without character ids,
    encodes the word of line [n] as [n], provided the word is not
    classified as numeric. *)
Theorem fit_after_load_vocab `{PyText} (f : list string) (n : nat)
    (line : string) (use_chars allow_unk : bool) :
  NoDup (Py.strip <$> f) → f !! n = Some line →
  is_digit (Py.strip line) = false →
  ∃ p, Processor_init (Some f) None false use_chars allow_unk = Ok p ∧
       fit p (Py.strip line) = Ok (Int (Z.of_nat n)).
Proof.
  intros Hnd Hline Hdigit.
  assert (vocab_loop ∅ 0 f !! Py.strip line = Some (Z.of_nat n)) as Hid.
  { apply vocab_loop_lookup. exists n.
    assert ((Py.strip <$> f) !! n = Some (Py.strip line)) as Hn
      by (by rewrite list_lookup_fmap, Hline).
    split; [done|]. split; [done|]. intros n' Hn' Hcontra.
    pose proof (NoDup_lookup _ _ _ _ Hnd Hn Hcontra). lia. }
  unfold Processor_init, load_vocab. cbn [mbind result_bind].
  eexists. split; [reflexivity|].
  unfold fit, preprocess, word_id, with_chars.
  cbn [lowercase char_vocab word_vocab]. by rewrite Hdigit, Hid.
Qed.

Lemma fit_after_load_vocab_witness :
  ∃ p, Processor_init
         (Some ["<PAD>" ++ Re.newline; "<UNK>" ++ Re.newline;
                "the" ++ Re.newline]%string) None false false false = Ok p ∧
       fit p (Py.strip ("the" ++ Re.newline)%string) = Ok (Int (Z.of_nat 2)).
Proof.
  apply (fit_after_load_vocab
           ["<PAD>" ++ Re.newline; "<UNK>" ++ Re.newline;
            "the" ++ Re.newline]%string 2 ("the" ++ Re.newline)%string).
  - apply (bool_decide_unpack _). by vm_compute.
  - reflexivity.
  - reflexivity.
Defined.

(** X27. Building a processor fails exactly when a vocabulary file that
    it must read cannot be opened, and then with [TypeError], for the
    handler of [load_vocab] raises a string. *)
Theorem Processor_init_missing_file (word_file : option (list string))
    (char_file : option (option (list string)))
    (lowercase use_chars allow_unk : bool) :
  (∀ e, Processor_init word_file char_file lowercase use_chars allow_unk
        = Raise e → e = TypeError) ∧
  ((∃ e, Processor_init word_file char_file lowercase use_chars allow_unk
         = Raise e) ↔
   word_file = None ∨ char_file = Some None).
Proof.
  unfold Processor_init, load_vocab.
  destruct word_file as [wf|], char_file as [[cf|]|];
    cbn [mbind result_bind]; split;
    try (intros e [= <-]; done); try done.
  all: split; [intros [e He]; try done; auto|].
  all: try (intros [?|?]; done).
  all: intros _; by eexists.
Qed.

Lemma Processor_init_missing_file_witness :
  ∃ e, Processor_init (Some ["the"]) (Some None) false true false = Raise e.
Proof.
  destruct (Processor_init_missing_file (Some ["the"]) (Some None)
              false true false) as [_ Hiff].
  apply Hiff. by right.
Defined.
